(** * jsopt: the flat node arena (include/jsopt/node.h, src/node.c)

    A shallow embedding of the node record, the kind classification macros,
    the arena operations of [node.c] and the lexer's [EMIT] macro, followed
    by the properties the specification states about them.

    Conventions.  Every C integer is a [Z]; an unsigned w-bit value is a [Z]
    in [0, 2^w).  Wrap-around is written out with [u8], [u16] and [u32] at
    the places where the C code computes or narrows a value.  The record
    store behind [arr->nodes] is a finite map from indices to the records
    written so far: a slot that was never written reads as all-zero, which
    is what a fresh anonymous mapping gives. *)

From Stdlib Require Import ZArith Lia Bool List.
From stdpp Require Import gmap strings pretty.
Import ListNotations.

Open Scope Z_scope.

(** ** Fixed-width unsigned arithmetic *)

Definition u8  (x : Z) : Z := x mod 2^8.
Definition u16 (x : Z) : Z := x mod 2^16.
Definition u32 (x : Z) : Z := x mod 2^32.

Definition is_u8  (x : Z) : Prop := 0 <= x < 2^8.
Definition is_u16 (x : Z) : Prop := 0 <= x < 2^16.
Definition is_u32 (x : Z) : Prop := 0 <= x < 2^32.

(** ** The node record (node.h, [Node]) *)

Record Node := mkNode {
  kind  : Z;   (* uint8_t  *)
  flags : Z;   (* uint8_t  *)
  op    : Z;   (* uint16_t *)
  start : Z;   (* uint32_t *)
  data0 : Z;   (* uint32_t data[0] *)
  data1 : Z    (* uint32_t data[1] *)
}.

Definition sizeof_Node : Z := 16.

(** The all-zero record: what sixteen zero bytes read as. *)
Definition zero_node : Node := mkNode 0 0 0 0 0 0.

(** ** Kinds (node.h, [NodeKind]) and the classification macros *)

Module Kind.

Definition NODE_IDENT    : Z := 0.
Definition NODE_NUMBER   : Z := 1.
Definition NODE_STRING   : Z := 2.
Definition NODE_KW_ASYNC : Z := 16.
Definition NODE_LBRACE   : Z := 56.
Definition NODE_PLUS     : Z := 72.
Definition NODE_EOF      : Z := 127.
Definition NODE_BINARY   : Z := 128.

End Kind.
Import Kind.

Definition IS_LEAF     (k : Z) : bool := k <? 16.
Definition IS_KEYWORD  (k : Z) : bool := (k >=? 16) && (k <? 56).
Definition IS_PUNCT    (k : Z) : bool := (k >=? 56) && (k <? 72).
Definition IS_OPERATOR (k : Z) : bool := (k >=? 72) && (k <? 127).
Definition IS_TOKEN    (k : Z) : bool := k <=? 127.
Definition IS_COMPOUND (k : Z) : bool := k >? 127.

(** The end-of-input sentinel has no macro of its own; it is the single
    kind [NODE_EOF]. *)
Definition is_eof (k : Z) : bool := k =? NODE_EOF.

(** The six classifications of the taxonomy, in the order of the table. *)
Definition classifications (k : Z) : list bool :=
  [IS_LEAF k; IS_KEYWORD k; IS_PUNCT k; IS_OPERATOR k; is_eof k; IS_COMPOUND k].

Definition holding (bs : list bool) : nat :=
  fold_right (fun (b : bool) n => if b then S n else n) 0%nat bs.

(** ** Node access macros *)

Definition NODE_NULL_IDX     : Z := 0.
Definition NODE_LEN_OVERFLOW : Z := 0xFFFF.
Definition NODE_MAX_NODES    : Z := Z.shiftl 1 24.

Definition NODE_VALID (idx : Z) : bool := negb (idx =? 0).

Definition NODE_END (n : Node) : Z :=
  if op n =? NODE_LEN_OVERFLOW then data1 n else u32 (start n + op n).

Definition NODE_LEN (n : Node) : Z := u32 (NODE_END n - start n).

Definition TOKEN_END (n : Node) : Z :=
  if op n =? NODE_LEN_OVERFLOW then data1 n else u32 (start n + op n).

(** ** The arena (node.h, [NodeArray]) *)

(** [nodes] is the pointer field: [None] is NULL, [Some buf] points at a
    mapping of [NODE_MAX_NODES] records holding [buf]. *)
Record NodeArray := mkNodeArray {
  nodes     : option (gmap Z Node);
  count     : Z;   (* uint32_t *)
  capacity  : Z;   (* uint32_t *)
  token_end : Z;   (* uint32_t *)
  root      : Z    (* uint32_t *)
}.

(** An index is backed by memory when it lies inside the mapping. *)
Definition in_mapping (idx : Z) : bool := (0 <=? idx) && (idx <? NODE_MAX_NODES).

Definition read_slot (buf : gmap Z Node) (idx : Z) : Node :=
  default zero_node (buf !! idx).

(** Reading [arr->nodes[idx]]; [None] when the access is through NULL or
    outside the mapping. *)
Definition NODE (arr : NodeArray) (idx : Z) : option Node :=
  match nodes arr with
  | Some buf => if in_mapping idx then Some (read_slot buf idx) else None
  | None => None
  end.

Definition NODE_KIND (arr : NodeArray) (idx : Z) : option Z := kind <$> NODE arr idx.

(** Writing all six fields of [arr->nodes[idx]]. *)
Definition write_slot (buf : gmap Z Node) (idx : Z) (n : Node) : option (gmap Z Node) :=
  if in_mapping idx then Some (<[idx := n]> buf) else None.

(** ** Outcomes of an arena operation

    An operation returns a value and leaves a new arena, or aborts the
    process after writing to stderr, or touches memory it does not own. *)

Inductive outcome (A : Type) : Type :=
| Returns (a : A) (arr : NodeArray)
| Aborts (stderr : string)
| Faults.

Arguments Returns {A} a arr.
Arguments Aborts {A} stderr.
Arguments Faults {A}.

Definition newline : string := String (Ascii.ascii_of_nat 10) EmptyString.

(** [fprintf(stderr, "jsopt: node limit exceeded (%u)\n", arr->capacity)] *)
Definition node_limit_exceeded (cap : Z) : string :=
  "jsopt: node limit exceeded (" +:+ pretty cap +:+ ")" +:+ newline.

(** ** node.c *)

(** The operating system's answer to the two [mmap] attempts of
    [node_array_init]. *)
Record OS := mkOS {
  huge_pages : bool;   (* MAP_HUGETLB | MAP_HUGE_2MB succeeds *)
  pages      : bool    (* the plain anonymous mapping succeeds *)
}.

(** An anonymous private mapping is zero-filled; [None] is MAP_FAILED. *)
Definition mmap (granted : bool) (size : Z) : option (gmap Z Node) :=
  if granted then Some ∅ else None.

Definition node_array_init (os : OS) (arr : NodeArray) (capacity : Z) : Z * NodeArray :=
  let size := NODE_MAX_NODES * sizeof_Node in
  let buf := mmap (huge_pages os) size in
  let buf := match buf with None => mmap (pages os) size | Some _ => buf end in
  match buf with
  | None => (-1, arr)
  | Some buf =>
      (0, {| nodes := Some buf; count := 1; capacity := NODE_MAX_NODES;
             token_end := 0; root := 0 |})
  end.

(** The [munmap] calls an operation makes: the mapping and the length. *)
Inductive syscall : Type :=
| munmap (buf : gmap Z Node) (length : Z).

Definition node_array_free (arr : NodeArray) : list syscall * NodeArray :=
  let calls :=
    match nodes arr with
    | Some buf => [munmap buf (capacity arr * sizeof_Node)]
    | None => []
    end in
  (calls, {| nodes := None; count := 0; capacity := 0; token_end := 0; root := 0 |}).

Definition node_push_token (arr : NodeArray) (kind start len line : Z) : outcome Z :=
  if count arr >=? capacity arr then Aborts (node_limit_exceeded (capacity arr))
  else
    let idx := count arr in
    let n := {| kind  := u8 kind;
                flags := 0;
                op    := if len <=? 0xFFFE then u16 len else NODE_LEN_OVERFLOW;
                start := start;
                data0 := line;
                data1 := if len >? 0xFFFE then u32 (start + len) else 0 |} in
    match nodes arr with
    | None => Faults
    | Some buf =>
        match write_slot buf idx n with
        | None => Faults
        | Some buf' =>
            Returns idx {| nodes := Some buf'; count := u32 (idx + 1);
                           capacity := capacity arr;
                           token_end := token_end arr; root := root arr |}
        end
    end.

Definition node_push (arr : NodeArray) (kind flags op start d0 d1 : Z) : outcome Z :=
  if count arr >=? capacity arr then Aborts (node_limit_exceeded (capacity arr))
  else
    let idx := count arr in
    let n := {| kind  := u8 kind;
                flags := flags;
                op    := op;
                start := start;
                data0 := d0;
                data1 := d1 |} in
    match nodes arr with
    | None => Faults
    | Some buf =>
        match write_slot buf idx n with
        | None => Faults
        | Some buf' =>
            Returns idx {| nodes := Some buf'; count := u32 (idx + 1);
                           capacity := capacity arr;
                           token_end := token_end arr; root := root arr |}
        end
    end.

Definition node_reserve (arr : NodeArray) (n : Z) : outcome Z :=
  let needed := u32 (count arr + n) in
  if needed >? capacity arr then Aborts (node_limit_exceeded (capacity arr))
  else
    let first := count arr in
    Returns first {| nodes := nodes arr; count := u32 (count arr + n);
                     capacity := capacity arr;
                     token_end := token_end arr; root := root arr |}.

(** ** The lexer's token emitter (node.h, [EMIT]) *)

(** Modelled from the spec: the lexer structure itself is declared outside
    node.h; [EMIT] requires of it a field [.nodes] (the arena) and a field
    [.line] (a uint32_t), and nothing else. *)
Module Lexer.

Record Lexer := mk {
  nodes : NodeArray;
  line  : Z          (* uint32_t *)
}.

End Lexer.

(** A call used as a statement: the returned value is dropped. *)
Definition discard {A : Type} (o : outcome A) : outcome unit :=
  match o with
  | Returns _ arr => Returns tt arr
  | Aborts msg => Aborts msg
  | Faults => Faults
  end.

(** The expansion of [EMIT(lex, k, s, e)].  It reads [lex->line] and changes
    only [lex->nodes], whose new state is the state of the outcome. *)
Definition EMIT (lex : Lexer.Lexer) (k s e : Z) : outcome unit :=
  let _a := Lexer.nodes lex in
  let _len := u32 (e - s) in
  if count _a <? capacity _a then
    let idx := count _a in
    let _n := {| kind  := u8 k;
                 flags := 0;
                 op    := if _len <=? 0xFFFE then u16 _len else NODE_LEN_OVERFLOW;
                 start := s;
                 data0 := Lexer.line lex;
                 data1 := if _len >? 0xFFFE then e else 0 |} in
    match nodes _a with
    | None => Faults
    | Some buf =>
        match write_slot buf idx _n with
        | None => Faults
        | Some buf' =>
            Returns tt {| nodes := Some buf'; count := u32 (idx + 1);
                          capacity := capacity _a;
                          token_end := token_end _a; root := root _a |}
        end
    end
  else
    discard (node_push_token _a k s _len (Lexer.line lex)).

(** ** Sequences of allocation calls *)

Inductive request : Type :=
| push_token (kind start len line : Z)
| push_compound (kind flags op start d0 d1 : Z)
| reserve (n : Z).

(** The arguments fit their C parameter types. *)
Definition well_typed (r : request) : Prop :=
  match r with
  | push_token kind start len line =>
      is_u8 kind /\ is_u32 start /\ is_u32 len /\ is_u32 line
  | push_compound kind flags op start d0 d1 =>
      is_u8 kind /\ is_u8 flags /\ is_u16 op /\ is_u32 start /\ is_u32 d0 /\ is_u32 d1
  | reserve n => is_u32 n
  end.

Definition perform (r : request) (arr : NodeArray) : outcome Z :=
  match r with
  | push_token kind start len line => node_push_token arr kind start len line
  | push_compound kind flags op start d0 d1 => node_push arr kind flags op start d0 d1
  | reserve n => node_reserve arr n
  end.

(** Runs the calls in order and collects the returned indices; stops at the
    first call that does not return. *)
Fixpoint run (rs : list request) (arr : NodeArray) : outcome (list Z) :=
  match rs with
  | [] => Returns [] arr
  | r :: rs' =>
      match perform r arr with
      | Returns idx arr' =>
          match run rs' arr' with
          | Returns idxs arr'' => Returns (idx :: idxs) arr''
          | Aborts msg => Aborts msg
          | Faults => Faults
          end
      | Aborts msg => Aborts msg
      | Faults => Faults
      end
  end.

(** Arena states reachable from a successful [node_array_init] by
    allocation calls that return. *)
Inductive reachable : NodeArray -> Prop :=
| reachable_init os arr0 cap arr :
    node_array_init os arr0 cap = (0, arr) -> reachable arr
| reachable_step arr r idx arr' :
    reachable arr -> well_typed r -> perform r arr = Returns idx arr' ->
    reachable arr'.

(** The arena a successful initialisation leaves. *)
Definition fresh_arena : NodeArray :=
  {| nodes := Some ∅; count := 1; capacity := NODE_MAX_NODES;
     token_end := 0; root := 0 |}.

(** The arena [memset] leaves at the end of [node_array_free]. *)
Definition zeroed_arena : NodeArray :=
  {| nodes := None; count := 0; capacity := 0; token_end := 0; root := 0 |}.

(** The arena after pushing the NUMBER tokens of [1 + 2]. *)
Definition two_numbers : NodeArray :=
  {| nodes := Some (<[2 := mkNode NODE_NUMBER 0 1 4 1 0]>
                    (<[1 := mkNode NODE_NUMBER 0 1 0 1 0]> ∅));
     count := 3; capacity := NODE_MAX_NODES; token_end := 0; root := 0 |}.

(** The arena after one token push followed by [node_reserve] of
    4294967295 slots: count is back at 1 and slot 1 still holds the token. *)
Definition stale_arena : NodeArray :=
  {| nodes := Some (<[1 := mkNode NODE_NUMBER 0 5 10 1 0]> ∅);
     count := 1; capacity := NODE_MAX_NODES; token_end := 0; root := 0 |}.

(** ** The arena invariant

    What [node_array_init] establishes and the allocation calls are meant to
    keep: a live mapping of full size, the null record below [count], and
    nothing written at or beyond [count]. *)
Definition arena_inv (arr : NodeArray) : Prop :=
  exists buf, nodes arr = Some buf
    /\ 1 <= count arr <= capacity arr
    /\ capacity arr = NODE_MAX_NODES
    /\ forall i, count arr <= i -> buf !! i = None.

(** A request whose arithmetic stays within 32 bits: the sum
    [arr->count + count] of [node_reserve] does not wrap around. *)
Definition no_wrap (r : request) (arr : NodeArray) : Prop :=
  match r with
  | reserve n => count arr + n < 2^32
  | _ => True
  end.

(** Reachable states whose every call kept its arithmetic within 32 bits. *)
Inductive reachable_no_wrap : NodeArray -> Prop :=
| reachable_no_wrap_init os arr0 cap arr :
    node_array_init os arr0 cap = (0, arr) -> reachable_no_wrap arr
| reachable_no_wrap_step arr r idx arr' :
    reachable_no_wrap arr -> well_typed r -> no_wrap r arr ->
    perform r arr = Returns idx arr' ->
    reachable_no_wrap arr'.

(** ** The enumerators of [NodeKind] (node.h)

    The declaration as the source writes it: the enumerators in order, one
    list per commented group, each with the value written after [=] where
    there is one. *)

Module NodeKind.

#[local] Open Scope string_scope.

Definition leaves : list (string * option Z) :=
  [("NODE_IDENT", Some 0); ("NODE_NUMBER", None); ("NODE_STRING", None);
   ("NODE_REGEX", None); ("NODE_TEMPLATE_FULL", None);
   ("NODE_TEMPLATE_HEAD", None); ("NODE_TEMPLATE_MID", None);
   ("NODE_TEMPLATE_TAIL", None); ("NODE_TRUE", None); ("NODE_FALSE", None);
   ("NODE_NULL", None); ("NODE_THIS", None); ("NODE_SUPER", None)].

Definition keywords : list (string * option Z) :=
  [("NODE_KW_ASYNC", Some 16); ("NODE_KW_AWAIT", None);
   ("NODE_KW_BREAK", None); ("NODE_KW_CASE", None); ("NODE_KW_CATCH", None);
   ("NODE_KW_CLASS", None); ("NODE_KW_CONST", None);
   ("NODE_KW_CONTINUE", None); ("NODE_KW_DEBUGGER", None);
   ("NODE_KW_DEFAULT", None); ("NODE_KW_DELETE", None); ("NODE_KW_DO", None);
   ("NODE_KW_ELSE", None); ("NODE_KW_EXPORT", None);
   ("NODE_KW_EXTENDS", None); ("NODE_KW_FINALLY", None);
   ("NODE_KW_FOR", None); ("NODE_KW_FUNCTION", None); ("NODE_KW_IF", None);
   ("NODE_KW_IMPORT", None); ("NODE_KW_IN", None);
   ("NODE_KW_INSTANCEOF", None); ("NODE_KW_LET", None);
   ("NODE_KW_NEW", None); ("NODE_KW_RETURN", None); ("NODE_KW_STATIC", None);
   ("NODE_KW_SWITCH", None); ("NODE_KW_THROW", None); ("NODE_KW_TRY", None);
   ("NODE_KW_TYPEOF", None); ("NODE_KW_VAR", None); ("NODE_KW_VOID", None);
   ("NODE_KW_WHILE", None); ("NODE_KW_WITH", None); ("NODE_KW_YIELD", None)].

Definition punctuation : list (string * option Z) :=
  [("NODE_LBRACE", Some 56); ("NODE_RBRACE", None); ("NODE_LPAREN", None);
   ("NODE_RPAREN", None); ("NODE_LBRACKET", None); ("NODE_RBRACKET", None);
   ("NODE_SEMI", None); ("NODE_COMMA", None); ("NODE_COLON", None);
   ("NODE_DOT", None); ("NODE_DOT_DOT_DOT", None); ("NODE_QUESTION", None);
   ("NODE_QUESTION_DOT", None); ("NODE_QUESTION_QUESTION", None);
   ("NODE_ARROW_TOK", None)].

Definition operators : list (string * option Z) :=
  [("NODE_PLUS", Some 72); ("NODE_MINUS", None); ("NODE_STAR", None);
   ("NODE_SLASH", None); ("NODE_PERCENT", None); ("NODE_STAR_STAR", None);
   ("NODE_PLUS_PLUS", None); ("NODE_MINUS_MINUS", None); ("NODE_LT", None);
   ("NODE_GT", None); ("NODE_LT_EQ", None); ("NODE_GT_EQ", None);
   ("NODE_EQ_EQ", None); ("NODE_EQ_EQ_EQ", None); ("NODE_BANG_EQ", None);
   ("NODE_BANG_EQ_EQ", None); ("NODE_LT_LT", None); ("NODE_GT_GT", None);
   ("NODE_GT_GT_GT", None); ("NODE_AMP", None); ("NODE_PIPE", None);
   ("NODE_CARET", None); ("NODE_TILDE", None); ("NODE_BANG", None);
   ("NODE_AMP_AMP", None); ("NODE_PIPE_PIPE", None); ("NODE_EQ", None);
   ("NODE_PLUS_EQ", None); ("NODE_MINUS_EQ", None); ("NODE_STAR_EQ", None);
   ("NODE_SLASH_EQ", None); ("NODE_PERCENT_EQ", None);
   ("NODE_STAR_STAR_EQ", None); ("NODE_LT_LT_EQ", None);
   ("NODE_GT_GT_EQ", None); ("NODE_GT_GT_GT_EQ", None);
   ("NODE_AMP_EQ", None); ("NODE_PIPE_EQ", None); ("NODE_CARET_EQ", None);
   ("NODE_AMP_AMP_EQ", None); ("NODE_PIPE_PIPE_EQ", None);
   ("NODE_QUESTION_QUESTION_EQ", None)].

Definition end_of_input : list (string * option Z) :=
  [("NODE_EOF", Some 127)].

Definition compounds : list (string * option Z) :=
  [("NODE_BINARY", Some 128); ("NODE_UNARY", None); ("NODE_UPDATE", None);
   ("NODE_ASSIGN", None); ("NODE_TERNARY", None); ("NODE_CALL", None);
   ("NODE_NEW", None); ("NODE_MEMBER", None); ("NODE_INDEX", None);
   ("NODE_ARRAY", None); ("NODE_OBJECT", None); ("NODE_FUNC_EXPR", None);
   ("NODE_ARROW", None); ("NODE_SEQUENCE", None); ("NODE_SPREAD", None);
   ("NODE_YIELD", None); ("NODE_AWAIT", None); ("NODE_TEMPLATE", None);
   ("NODE_BLOCK", None); ("NODE_EMPTY", None); ("NODE_EXPR_STMT", None);
   ("NODE_IF", None); ("NODE_WHILE", None); ("NODE_DO_WHILE", None);
   ("NODE_FOR", None); ("NODE_FOR_IN", None); ("NODE_FOR_OF", None);
   ("NODE_SWITCH", None); ("NODE_CASE", None); ("NODE_BREAK", None);
   ("NODE_CONTINUE", None); ("NODE_RETURN", None); ("NODE_THROW", None);
   ("NODE_TRY", None); ("NODE_CATCH", None); ("NODE_DEBUGGER", None);
   ("NODE_WITH", None); ("NODE_LABELED", None); ("NODE_VAR_DECL", None);
   ("NODE_DECLARATOR", None); ("NODE_FUNC_DECL", None); ("NODE_CLASS", None);
   ("NODE_CLASS_BODY", None); ("NODE_METHOD", None); ("NODE_PROPERTY", None);
   ("NODE_ARRAY_PATTERN", None); ("NODE_OBJECT_PATTERN", None);
   ("NODE_REST", None); ("NODE_ASSIGN_PATTERN", None); ("NODE_IMPORT", None);
   ("NODE_EXPORT", None); ("NODE_IMPORT_SPEC", None);
   ("NODE_EXPORT_SPEC", None); ("NODE_PROGRAM", None)].

Definition count_marker : list (string * option Z) :=
  [("NODE_COUNT", None)].

Definition enumerators : list (string * option Z) :=
  leaves ++ keywords ++ punctuation ++ operators ++ end_of_input
  ++ compounds ++ count_marker.

(** C gives an enumerator without an initialiser the value of its
    predecessor plus one, and 0 to a first one. *)
Fixpoint number (next : Z) (ds : list (string * option Z)) : list (string * Z) :=
  match ds with
  | [] => []
  | (name, init) :: ds' =>
      let v := default next init in (name, v) :: number (v + 1) ds'
  end.

Definition values : list (string * Z) := number 0 enumerators.

Fixpoint assoc (name : string) (vs : list (string * Z)) : option Z :=
  match vs with
  | [] => None
  | (n, v) :: vs' => if String.eqb n name then Some v else assoc name vs'
  end.

(** The value of the enumerator called [name]. *)
Definition value_of (name : string) : option Z := assoc name values.

Definition names (ds : list (string * option Z)) : list string := map fst ds.

End NodeKind.

(** ** Node flag constants (node.h) *)

Definition NODE_FLAG_ASYNC     : Z := Z.shiftl 1 0.
Definition NODE_FLAG_GENERATOR : Z := Z.shiftl 1 1.
Definition NODE_FLAG_CONST     : Z := Z.shiftl 1 2.
Definition NODE_FLAG_LET       : Z := Z.shiftl 1 3.
Definition NODE_FLAG_STATIC    : Z := Z.shiftl 1 4.
Definition NODE_FLAG_COMPUTED  : Z := Z.shiftl 1 5.
Definition NODE_FLAG_SHORTHAND : Z := Z.shiftl 1 6.
Definition NODE_FLAG_METHOD    : Z := Z.shiftl 1 7.

(** The eight constants, in the order of the header. *)
Definition NODE_FLAGS : list Z :=
  [NODE_FLAG_ASYNC; NODE_FLAG_GENERATOR; NODE_FLAG_CONST; NODE_FLAG_LET;
   NODE_FLAG_STATIC; NODE_FLAG_COMPUTED; NODE_FLAG_SHORTHAND; NODE_FLAG_METHOD].

(** ** Vocabulary for sequences of calls *)

(** The number of slots a request asks for. *)
Definition slots (r : request) : Z :=
  match r with
  | reserve n => n
  | _ => 1
  end.

Definition total (rs : list request) : Z :=
  fold_right (fun r acc => slots r + acc) 0 rs.

(** Consecutive blocks starting at [first]: the first index of each. *)
Fixpoint indices (first : Z) (rs : list request) : list Z :=
  match rs with
  | [] => []
  | r :: rs' => first :: indices (first + slots r) rs'
  end.

(** A request too small to wrap the 32-bit sum of [node_reserve] on any
    arena whose count is at most [NODE_MAX_NODES]. *)
Definition cannot_wrap (r : request) : Prop :=
  slots r <= 2^32 - 1 - NODE_MAX_NODES.

(** What every reachable arena satisfies, wrapped reserves included: a
    live mapping of full size and a count inside it. *)
Definition within_mapping (arr : NodeArray) : Prop :=
  exists buf, nodes arr = Some buf
    /\ 0 <= count arr <= capacity arr
    /\ capacity arr = NODE_MAX_NODES.

(** * Properties *)

(** ** Arithmetic helpers *)

Lemma NODE_MAX_NODES_eq : NODE_MAX_NODES = 16777216.
Proof. reflexivity. Qed.

Lemma u32_id x : is_u32 x -> u32 x = x.
Proof. unfold is_u32, u32. intros H. apply Z.mod_small. exact H. Qed.

Lemma u16_id x : is_u16 x -> u16 x = x.
Proof. unfold is_u16, u16. intros H. apply Z.mod_small. exact H. Qed.

Lemma u8_id x : is_u8 x -> u8 x = x.
Proof. unfold is_u8, u8. intros H. apply Z.mod_small. exact H. Qed.

Lemma u32_range x : is_u32 (u32 x).
Proof. unfold is_u32, u32. apply Z.mod_pos_bound. lia. Qed.

(** Adding a length and taking it back off is the identity on 32 bits. *)
Lemma u32_add_sub s l : is_u32 l -> u32 (u32 (s + l) - s) = l.
Proof.
  unfold is_u32, u32. intros H.
  rewrite Zminus_mod_idemp_l.
  replace (s + l - s) with l by ring.
  apply Z.mod_small. exact H.
Qed.

Lemma u32_sub_add s e : is_u32 e -> u32 (s + u32 (e - s)) = e.
Proof.
  unfold is_u32, u32. intros H.
  rewrite Zplus_mod_idemp_r.
  replace (s + (e - s)) with e by ring.
  apply Z.mod_small. exact H.
Qed.

(** Destructs every integer comparison in the goal into its two cases,
    dropping the cases the hypotheses exclude. *)
Ltac cases_cmp :=
  rewrite ?Z.geb_leb, ?Z.gtb_ltb in *;
  repeat match goal with
  | |- context [?a <? ?b]  => destruct (Z.ltb_spec a b); try lia
  | |- context [?a <=? ?b] => destruct (Z.leb_spec a b); try lia
  | |- context [?a =? ?b]  => destruct (Z.eqb_spec a b); try lia
  end.

(** ** Kind classification *)

(** The six ranges tile 0..255, so a kind falls in exactly one. *)
Lemma exactly_one_classification (k : Z) :
  0 <= k < 256 -> holding (classifications k) = 1%nat.
Proof.
  intros Hk.
  unfold classifications, IS_LEAF, IS_KEYWORD, IS_PUNCT, IS_OPERATOR,
    IS_COMPOUND, is_eof, NODE_EOF.
  assert (Hcase : k < 16 \/ 16 <= k < 56 \/ 56 <= k < 72 \/ 72 <= k < 127
                  \/ k = 127 \/ 127 < k) by lia.
  destruct Hcase as [H | [H | [H | [H | [H | H]]]]];
    cases_cmp; reflexivity.
Qed.

(** C6. For an 8-bit kind exactly one of leaf, keyword, punctuation,
    operator, end-of-input and compound holds; each macro is the stated
    range check, the operator range is 72..126 and so leaves out 127 and 0;
    token is the union of the five token classifications and compound is
    its complement. *)
Theorem kind_partition (k : Z) :
  is_u8 k ->
  holding (classifications k) = 1%nat
  /\ (IS_LEAF k = true <-> k < 16)
  /\ (IS_KEYWORD k = true <-> 16 <= k < 56)
  /\ (IS_PUNCT k = true <-> 56 <= k < 72)
  /\ (IS_OPERATOR k = true <-> 72 <= k <= 126)
  /\ IS_OPERATOR 127 = false
  /\ IS_OPERATOR 0 = false
  /\ (is_eof k = true <-> k = 127)
  /\ (IS_TOKEN k = true <-> k <= 127)
  /\ (IS_COMPOUND k = true <-> k > 127)
  /\ IS_TOKEN k = IS_LEAF k || IS_KEYWORD k || IS_PUNCT k || IS_OPERATOR k || is_eof k
  /\ IS_COMPOUND k = negb (IS_TOKEN k).
Proof.
  unfold is_u8. change (2 ^ 8) with 256. intros Hk.
  split; [apply exactly_one_classification; lia |].
  unfold IS_LEAF, IS_KEYWORD, IS_PUNCT, IS_OPERATOR, IS_TOKEN, IS_COMPOUND,
    is_eof, NODE_EOF.
  repeat split; intros; try reflexivity;
    try (cases_cmp; simpl in *; first [reflexivity | discriminate | lia]).
Qed.

Lemma kind_partition_witness :
  is_u8 127 /\ holding (classifications 127) = 1%nat.
Proof.
  assert (H : is_u8 127) by (unfold is_u8; lia).
  split; [exact H | exact (proj1 (kind_partition 127 H))].
Defined.

(** ** What a push that returns has done *)

(** Takes a hypothesis [H : push ... = Returns idx arr'] apart: the capacity
    check passed, the pointer is not NULL, the slot is inside the mapping. *)
Ltac invert_push H :=
  unfold node_push_token, node_push, write_slot in H;
  let Hcap := fresh "Hcap" in
  let Hbuf := fresh "Hbuf" in
  let Hmap := fresh "Hmap" in
  destruct (count _ >=? capacity _) eqn:Hcap; [discriminate H |];
  destruct (nodes _) as [?buf |] eqn:Hbuf; [| discriminate H];
  destruct (in_mapping _) eqn:Hmap; [| discriminate H];
  injection H as <- <-.

(** Reading back the slot that was just written. *)
Lemma NODE_written buf idx n c cap te rt :
  in_mapping idx = true ->
  NODE {| nodes := Some (<[idx := n]> buf); count := c; capacity := cap;
          token_end := te; root := rt |} idx = Some n.
Proof.
  intros Hmap. unfold NODE, read_slot. simpl.
  rewrite Hmap, lookup_insert_eq. reflexivity.
Qed.

(** Reading any other slot. *)
Lemma NODE_other buf idx n c cap te rt c0 i :
  i <> idx -> nodes c0 = Some buf ->
  NODE {| nodes := Some (<[idx := n]> buf); count := c; capacity := cap;
          token_end := te; root := rt |} i = NODE c0 i.
Proof.
  intros Hne Hbuf. unfold NODE, read_slot. simpl.
  rewrite Hbuf, lookup_insert_ne by congruence. reflexivity.
Qed.

(** ** Token records *)

(** C1. A push-token that returns has written, at the returned index, a
    record with the kind and start as given, flags 0 and data[0] the line;
    for a length up to 65534 op is the length and data[1] is 0, and for a
    length from 65535 on op is the overflow sentinel 0xFFFF and data[1] is
    start + len on 32 bits. *)
Theorem node_push_token_record (arr : NodeArray) (k s l ln idx : Z) (arr' : NodeArray) :
  is_u8 k -> is_u32 l ->
  node_push_token arr k s l ln = Returns idx arr' ->
  exists n, NODE arr' idx = Some n
    /\ kind n = k /\ flags n = 0 /\ start n = s /\ data0 n = ln
    /\ (l <= 65534 -> op n = l /\ data1 n = 0)
    /\ (65535 <= l -> op n = 0xFFFF /\ data1 n = (s + l) mod 2^32).
Proof.
  intros Hk Hl H. invert_push H.
  eexists. split; [apply NODE_written; exact Hmap |]. simpl.
  rewrite (u8_id k Hk). unfold NODE_LEN_OVERFLOW, u32.
  repeat split; try (cases_cmp; try reflexivity).
  apply u16_id. unfold is_u16, is_u32 in *. lia.
Qed.

Lemma node_push_token_record_witness :
  exists arr',
    node_push_token fresh_arena NODE_STRING 100 70000 5 = Returns 1 arr'
    /\ exists n, NODE arr' 1 = Some n
         /\ kind n = NODE_STRING /\ flags n = 0 /\ start n = 100 /\ data0 n = 5
         /\ (70000 <= 65534 -> op n = 70000 /\ data1 n = 0)
         /\ (65535 <= 70000 -> op n = 0xFFFF /\ data1 n = (100 + 70000) mod 2^32).
Proof.
  eexists. split; [reflexivity |].
  apply (node_push_token_record fresh_arena NODE_STRING 100 70000 5 1).
  - unfold is_u8, NODE_STRING. lia.
  - unfold is_u32. lia.
  - reflexivity.
Defined.

(** C2. For the record of a push-token that returns, the derived end
    offset minus start is the pushed length on 32 bits, on the inline path
    and on the overflow path alike; so is the derived length. *)
Theorem token_end_minus_start (arr : NodeArray) (k s l ln idx : Z) (arr' : NodeArray) :
  is_u32 s -> is_u32 l ->
  node_push_token arr k s l ln = Returns idx arr' ->
  exists n, NODE arr' idx = Some n
    /\ NODE_END n = (if op n =? NODE_LEN_OVERFLOW then data1 n else u32 (s + op n))
    /\ u32 (NODE_END n - s) = l
    /\ NODE_LEN n = l
    /\ TOKEN_END n = NODE_END n.
Proof.
  intros Hs Hl H. invert_push H.
  eexists. split; [apply NODE_written; exact Hmap |].
  unfold NODE_LEN, TOKEN_END, NODE_END, NODE_LEN_OVERFLOW. simpl.
  assert (Hend :
    (if (if l <=? 65534 then u16 l else 65535) =? 65535
     then if l >? 65534 then u32 (s + l) else 0
     else u32 (s + (if l <=? 65534 then u16 l else 65535))) = u32 (s + l)).
  { destruct (Z.leb_spec l 65534) as [Hle | Hgt].
    - rewrite (u16_id l) by (unfold is_u16, is_u32 in *; lia).
      destruct (Z.eqb_spec l 65535); [lia | reflexivity].
    - simpl. destruct (Z.gtb_spec l 65534); [reflexivity | lia]. }
  rewrite Hend.
  repeat split; apply u32_add_sub; exact Hl.
Qed.

Lemma token_end_minus_start_witness :
  exists arr',
    node_push_token fresh_arena NODE_STRING 100 4294967295 7 = Returns 1 arr'
    /\ exists n, NODE arr' 1 = Some n
         /\ NODE_END n = (if op n =? NODE_LEN_OVERFLOW then data1 n else u32 (100 + op n))
         /\ u32 (NODE_END n - 100) = 4294967295
         /\ NODE_LEN n = 4294967295
         /\ TOKEN_END n = NODE_END n.
Proof.
  eexists. split; [reflexivity |].
  apply (token_end_minus_start fresh_arena NODE_STRING 100 4294967295 7 1).
  - unfold is_u32. lia.
  - unfold is_u32. lia.
  - reflexivity.
Defined.

(** ** Initialisation and destruction *)

(** C5. When either mapping attempt is granted, initialize returns 0 and
    leaves count 1, capacity 2^24, token_end 0, root 0 and an all-zero
    record at index 0, whatever capacity was requested; when both attempts
    fail it returns -1 and installs nothing: the structure is left as it
    was found. *)
Theorem node_array_init_result (os : OS) (arr : NodeArray) (cap : Z) :
  if huge_pages os || pages os then
    exists a, node_array_init os arr cap = (0, a)
      /\ count a = 1 /\ capacity a = 2^24 /\ token_end a = 0 /\ root a = 0
      /\ NODE a 0 = Some (mkNode 0 0 0 0 0 0)
      /\ forall cap', node_array_init os arr cap' = (0, a)
  else
    node_array_init os arr cap = (-1, arr).
Proof.
  unfold node_array_init, mmap.
  destruct (huge_pages os), (pages os); simpl;
    try reflexivity;
    (eexists; repeat split; reflexivity).
Qed.

(** The arena [node_array_init] leaves is [fresh_arena], and it satisfies
    the invariant. *)
Lemma node_array_init_fresh os arr cap a :
  node_array_init os arr cap = (0, a) -> a = fresh_arena.
Proof.
  unfold node_array_init, mmap.
  destruct (huge_pages os), (pages os); simpl; intros H;
    inversion H; reflexivity.
Qed.

Lemma fresh_arena_inv : arena_inv fresh_arena.
Proof.
  exists ∅. unfold fresh_arena. simpl.
  split; [reflexivity |]. split; [rewrite NODE_MAX_NODES_eq; lia |].
  split; [reflexivity |].
  intros i _. apply lookup_empty.
Qed.

(** C9. destroy never fails: it leaves the pointer NULL and count,
    capacity, token_end and root zero, and a second call on that arena
    unmaps nothing and leaves the same zeroed fields. *)
Theorem node_array_free_idempotent (arr : NodeArray) :
  let once := snd (node_array_free arr) in
  nodes once = None /\ count once = 0 /\ capacity once = 0
  /\ token_end once = 0 /\ root once = 0
  /\ node_array_free once = ([], once).
Proof.
  unfold node_array_free. simpl. repeat split.
Qed.

(** The first call unmaps the whole reservation exactly when there is one. *)
Lemma node_array_free_unmaps arr buf :
  nodes arr = Some buf ->
  fst (node_array_free arr) = [munmap buf (capacity arr * 16)].
Proof. intros H. unfold node_array_free. rewrite H. reflexivity. Qed.

(** ** The inline emitter *)

(** C10. Expanding EMIT(lex, k, s, e) has the outcome of calling
    node_push_token(&lex->nodes, k, s, e - s, lex->line) and dropping the
    index: the same arena with the same record, the overflow encoding
    included, and the same abort when the arena is full. *)
Theorem EMIT_is_node_push_token (lex : Lexer.Lexer) (k s e : Z) :
  is_u32 e ->
  EMIT lex k s e
  = discard (node_push_token (Lexer.nodes lex) k s (u32 (e - s)) (Lexer.line lex)).
Proof.
  intros He. unfold EMIT.
  destruct (count (Lexer.nodes lex) <? capacity (Lexer.nodes lex)) eqn:Hlt;
    [| reflexivity].
  unfold node_push_token.
  replace (count (Lexer.nodes lex) >=? capacity (Lexer.nodes lex)) with false by lia.
  rewrite (u32_sub_add s e He).
  destruct (nodes (Lexer.nodes lex)); [| reflexivity].
  destruct (write_slot _ _ _); reflexivity.
Qed.

Lemma EMIT_is_node_push_token_witness :
  is_u32 70100
  /\ EMIT (Lexer.mk fresh_arena 5) NODE_STRING 100 70100
     = discard (node_push_token fresh_arena NODE_STRING 100 (u32 (70100 - 100)) 5).
Proof.
  assert (H : is_u32 70100) by (unfold is_u32; lia).
  split; [exact H |].
  exact (EMIT_is_node_push_token (Lexer.mk fresh_arena 5) NODE_STRING 100 70100 H).
Defined.

(** ** Frame of an allocation *)

(** C8. An allocation call that returns leaves capacity, token_end and
    root as they were, and every record below the count it started from
    reads as before; with a count of at least 1 that covers the null record
    at index 0. *)
Theorem allocation_frame (r : request) (arr : NodeArray) (idx : Z) (arr' : NodeArray) :
  perform r arr = Returns idx arr' ->
  capacity arr' = capacity arr
  /\ token_end arr' = token_end arr
  /\ root arr' = root arr
  /\ (forall i, i < count arr -> NODE arr' i = NODE arr i)
  /\ (1 <= count arr -> NODE arr' 0 = NODE arr 0).
Proof.
  intros H.
  assert (Hbelow : capacity arr' = capacity arr /\ token_end arr' = token_end arr
                   /\ root arr' = root arr
                   /\ forall i, i < count arr -> NODE arr' i = NODE arr i).
  { destruct r as [k s l ln | k f o s d0 d1 | n]; simpl in H.
    - invert_push H. simpl. repeat split.
      intros i Hi. apply NODE_other; [lia | exact Hbuf].
    - invert_push H. simpl. repeat split.
      intros i Hi. apply NODE_other; [lia | exact Hbuf].
    - unfold node_reserve in H.
      destruct (u32 (count arr + n) >? capacity arr); [discriminate H |].
      injection H as <- <-. simpl. repeat split. }
  destruct Hbelow as (Hc & Ht & Hr & Hn).
  repeat split; try assumption.
  intros Hcount. apply Hn. lia.
Qed.

Lemma allocation_frame_witness :
  exists arr',
    perform (push_compound NODE_BINARY 0 NODE_PLUS 5 1 2) two_numbers = Returns 3 arr'
    /\ capacity arr' = capacity two_numbers
    /\ token_end arr' = token_end two_numbers
    /\ root arr' = root two_numbers
    /\ (forall i, i < count two_numbers -> NODE arr' i = NODE two_numbers i)
    /\ (1 <= count two_numbers -> NODE arr' 0 = NODE two_numbers 0).
Proof.
  eexists. split; [reflexivity |].
  apply (allocation_frame (push_compound NODE_BINARY 0 NODE_PLUS 5 1 2) two_numbers 3).
  reflexivity.
Defined.

(** ** The capacity check *)

Lemma node_push_token_full arr k s l ln :
  count arr >= capacity arr ->
  node_push_token arr k s l ln = Aborts (node_limit_exceeded (capacity arr)).
Proof.
  intros H. unfold node_push_token.
  replace (count arr >=? capacity arr) with true by lia. reflexivity.
Qed.

Lemma node_push_full arr k f o s d0 d1 :
  count arr >= capacity arr ->
  node_push arr k f o s d0 d1 = Aborts (node_limit_exceeded (capacity arr)).
Proof.
  intros H. unfold node_push.
  replace (count arr >=? capacity arr) with true by lia. reflexivity.
Qed.

(** While the sum stays within 32 bits, [node_reserve] aborts exactly when
    the block does not fit. *)
Lemma node_reserve_no_wrap_full arr n :
  0 <= count arr + n < 2^32 -> count arr + n > capacity arr ->
  node_reserve arr n = Aborts (node_limit_exceeded (capacity arr)).
Proof.
  intros Hsum H. unfold node_reserve.
  rewrite (u32_id _ Hsum).
  replace (count arr + n >? capacity arr) with true by lia. reflexivity.
Qed.

Lemma node_reserve_no_wrap_room arr n :
  0 <= count arr + n < 2^32 -> count arr + n <= capacity arr ->
  node_reserve arr n
  = Returns (count arr) {| nodes := nodes arr; count := count arr + n;
                           capacity := capacity arr;
                           token_end := token_end arr; root := root arr |}.
Proof.
  intros Hsum H. unfold node_reserve.
  rewrite (u32_id _ Hsum).
  replace (count arr + n >? capacity arr) with false by lia. reflexivity.
Qed.

(** The message names the capacity; for an initialised arena it reads: *)
Example node_limit_exceeded_text :
  node_limit_exceeded (capacity fresh_arena)
  = "jsopt: node limit exceeded (16777216)" +:+ newline.
Proof. reflexivity. Qed.

(** ** The invariant along calls that do not wrap *)

Lemma in_mapping_iff i : in_mapping i = true <-> 0 <= i < NODE_MAX_NODES.
Proof. unfold in_mapping. lia. Qed.

(** One call: the index returned is the old count, it is not the null
    index, count advances by the number of slots taken, and the invariant
    is kept. *)
Lemma perform_keeps_inv r arr idx arr' :
  arena_inv arr -> well_typed r -> no_wrap r arr ->
  perform r arr = Returns idx arr' ->
  arena_inv arr'
  /\ idx = count arr /\ 1 <= idx
  /\ count arr' = count arr + match r with reserve n => n | _ => 1 end.
Proof.
  intros (buf0 & Hb0 & Hcount & Hcapacity & Hzero) Hty Hnw H.
  pose proof NODE_MAX_NODES_eq as Hmax.
  destruct r as [k s l ln | k f o s d0 d1 | n]; simpl in H.
  - invert_push H. simpl.
    assert (Hnext : u32 (count arr + 1) = count arr + 1)
      by (apply u32_id; unfold is_u32; lia).
    rewrite Hnext. repeat split; try lia.
    eexists. simpl. split; [reflexivity |]. split; [lia |].
    split; [exact Hcapacity |].
    intros i Hi. rewrite lookup_insert_ne by lia.
    assert (buf = buf0) as -> by congruence. apply Hzero. lia.
  - invert_push H. simpl.
    assert (Hnext : u32 (count arr + 1) = count arr + 1)
      by (apply u32_id; unfold is_u32; lia).
    rewrite Hnext. repeat split; try lia.
    eexists. simpl. split; [reflexivity |]. split; [lia |].
    split; [exact Hcapacity |].
    intros i Hi. rewrite lookup_insert_ne by lia.
    assert (buf = buf0) as -> by congruence. apply Hzero. lia.
  - simpl in Hty, Hnw. unfold is_u32 in Hty.
    assert (Hsum : 0 <= count arr + n < 2^32) by lia.
    unfold node_reserve in H. rewrite (u32_id _ Hsum) in H.
    destruct (count arr + n >? capacity arr) eqn:Hfit; [discriminate H |].
    injection H as <- <-. simpl. repeat split; try lia.
    exists buf0. simpl. split; [exact Hb0 |]. split; [lia |].
    split; [exact Hcapacity |].
    intros i Hi. apply Hzero. lia.
Qed.

Lemma reachable_no_wrap_inv arr : reachable_no_wrap arr -> arena_inv arr.
Proof.
  induction 1 as [os arr0 cap arr Hinit | arr r idx arr' _ IH Hty Hnw Hstep].
  - rewrite (node_array_init_fresh _ _ _ _ Hinit). apply fresh_arena_inv.
  - exact (proj1 (perform_keeps_inv r arr idx arr' IH Hty Hnw Hstep)).
Qed.

(** Under the invariant every slot from [count] up to the end of the
    mapping reads as all-zero. *)
Lemma zero_beyond_count arr i :
  arena_inv arr -> count arr <= i < NODE_MAX_NODES ->
  NODE arr i = Some zero_node.
Proof.
  intros (buf & Hb & Hcount & _ & Hzero) Hi.
  unfold NODE, read_slot. rewrite Hb.
  replace (in_mapping i) with true by (symmetry; apply in_mapping_iff; lia).
  rewrite Hzero by lia. reflexivity.
Qed.

(** So a reserve that does not wrap hands out all-zero slots, and the next
    push lands right behind them. *)
Lemma reserve_no_wrap_zero_slots arr n first arr' :
  reachable_no_wrap arr -> is_u32 n -> count arr + n < 2^32 ->
  node_reserve arr n = Returns first arr' ->
  first = count arr /\ 1 <= first /\ count arr' = first + n
  /\ forall i, first <= i < first + n -> NODE arr' i = Some zero_node.
Proof.
  intros Hreach Hn Hnw H.
  pose proof (reachable_no_wrap_inv arr Hreach) as Hinv.
  destruct (perform_keeps_inv (reserve n) arr first arr' Hinv Hn Hnw H)
    as (Hinv' & -> & Hpos & Hcount).
  repeat split; try assumption.
  intros i Hi.
  destruct Hinv as (buf & Hb & Hc & Hcapacity & Hzero).
  destruct Hinv' as (buf' & Hb' & Hc' & Hcapacity' & _).
  unfold node_reserve in H.
  destruct (u32 (count arr + n) >? capacity arr); [discriminate H |].
  injection H as <-. unfold NODE, read_slot. simpl in *. rewrite Hb.
  replace (in_mapping i) with true by (symmetry; apply in_mapping_iff; lia).
  rewrite Hzero by lia. reflexivity.
Qed.

(** With room left, a push on an arena that satisfies the invariant
    returns the old count and advances count by one. *)
Lemma node_push_token_room arr k s l ln :
  arena_inv arr -> count arr < capacity arr ->
  exists arr',
    node_push_token arr k s l ln = Returns (count arr) arr'
    /\ count arr' = count arr + 1.
Proof.
  intros (buf & Hb & Hcount & Hcapacity & _) Hroom.
  pose proof NODE_MAX_NODES_eq as Hmax.
  unfold node_push_token, write_slot. rewrite Hb.
  replace (count arr >=? capacity arr) with false by lia.
  replace (in_mapping (count arr)) with true
    by (symmetry; apply in_mapping_iff; lia).
  eexists. split; [reflexivity |]. simpl.
  apply u32_id. unfold is_u32. lia.
Qed.

Lemma node_push_room arr k f o s d0 d1 :
  arena_inv arr -> count arr < capacity arr ->
  exists arr',
    node_push arr k f o s d0 d1 = Returns (count arr) arr'
    /\ count arr' = count arr + 1.
Proof.
  intros (buf & Hb & Hcount & Hcapacity & _) Hroom.
  pose proof NODE_MAX_NODES_eq as Hmax.
  unfold node_push, write_slot. rewrite Hb.
  replace (count arr >=? capacity arr) with false by lia.
  replace (in_mapping (count arr)) with true
    by (symmetry; apply in_mapping_iff; lia).
  eexists. split; [reflexivity |]. simpl.
  apply u32_id. unfold is_u32. lia.
Qed.

(** ** Where the 32-bit sum of [node_reserve] wraps

    [node_reserve] compares [arr->count + count] with the capacity after the
    sum has been reduced to 32 bits.  A request large enough to wrap the sum
    passes the check, and [count] then moves backwards. *)

(** C3. On a freshly initialised arena reserve(4294967295) would advance
    count beyond capacity, yet the call returns index 1 instead of aborting
    and leaves count at 0. *)
Theorem node_reserve_wrapped_sum_returns :
  is_u32 4294967295
  /\ count fresh_arena + 4294967295 > capacity fresh_arena
  /\ node_reserve fresh_arena 4294967295
     = Returns 1 {| nodes := Some ∅; count := 0; capacity := NODE_MAX_NODES;
                    token_end := 0; root := 0 |}.
Proof.
  split; [unfold is_u32; lia |].
  split; [simpl; rewrite NODE_MAX_NODES_eq; lia |].
  reflexivity.
Qed.

(** C4. After reserve(4294967295) has returned 1 on a freshly initialised
    arena, the next push-token returns index 0 and writes its record over
    the null record. *)
Theorem push_returns_null_index_after_wrapped_reserve :
  run [reserve 4294967295; push_token NODE_IDENT 10 5 1] fresh_arena
  = Returns [1; 0]
      {| nodes := Some (<[0 := mkNode NODE_IDENT 0 5 10 1 0]> ∅);
         count := 1; capacity := NODE_MAX_NODES; token_end := 0; root := 0 |}.
Proof. reflexivity. Qed.

Lemma stale_arena_reachable : reachable stale_arena.
Proof.
  apply (reachable_step
           {| nodes := Some (<[1 := mkNode NODE_NUMBER 0 5 10 1 0]> ∅);
              count := 2; capacity := NODE_MAX_NODES; token_end := 0; root := 0 |}
           (reserve 4294967295) 2).
  - apply (reachable_step fresh_arena (push_token NODE_NUMBER 10 5 1) 1).
    + apply (reachable_init (mkOS true true) zeroed_arena 64). reflexivity.
    + simpl. unfold is_u8, is_u32, NODE_NUMBER. lia.
    + reflexivity.
  - simpl. unfold is_u32. lia.
  - reflexivity.
Qed.

(** C7. Pushing one token and then reserving 4294967295 slots reaches an
    arena whose count is 1 while slot 1 still holds the token; a following
    reserve(1) returns that slot, which does not read as all-zero. *)
Theorem nonzero_slot_at_count_after_wrapped_reserve :
  run [push_token NODE_NUMBER 10 5 1; reserve 4294967295] fresh_arena
  = Returns [1; 2] stale_arena
  /\ reachable stale_arena
  /\ count stale_arena = 1
  /\ NODE stale_arena 1 = Some (mkNode NODE_NUMBER 0 5 10 1 0)
  /\ NODE stale_arena 1 <> Some zero_node
  /\ exists arr',
       node_reserve stale_arena 1 = Returns 1 arr'
       /\ NODE arr' 1 = Some (mkNode NODE_NUMBER 0 5 10 1 0).
Proof.
  split; [reflexivity |].
  split; [exact stale_arena_reachable |].
  split; [reflexivity |].
  split; [reflexivity |].
  split; [discriminate |].
  eexists. split; reflexivity.
Qed.

(** ** The scenarios of the test suite *)

Example simple_token :
  exists arr',
    node_push_token fresh_arena NODE_IDENT 10 5 1 = Returns 1 arr'
    /\ count arr' = 2
    /\ NODE arr' 1 = Some (mkNode NODE_IDENT 0 5 10 1 0)
    /\ (NODE_END <$> NODE arr' 1) = Some 15.
Proof. eexists. repeat split. Qed.

Example overflow_token :
  exists arr',
    node_push_token fresh_arena NODE_STRING 100 70000 5 = Returns 1 arr'
    /\ NODE arr' 1 = Some (mkNode NODE_STRING 0 NODE_LEN_OVERFLOW 100 5 70100)
    /\ (NODE_END <$> NODE arr' 1) = Some 70100
    /\ (NODE_LEN <$> NODE arr' 1) = Some 70000.
Proof. eexists. repeat split. Qed.

Example compound_with_children :
  run [push_token NODE_NUMBER 0 1 1; push_token NODE_NUMBER 4 1 1] fresh_arena
  = Returns [1; 2] two_numbers
  /\ exists arr',
       node_push two_numbers NODE_BINARY 0 NODE_PLUS 5 1 2 = Returns 3 arr'
       /\ NODE arr' 3 = Some (mkNode NODE_BINARY 0 NODE_PLUS 5 1 2).
Proof. split; [reflexivity |]. eexists. split; reflexivity. Qed.

Example reserve_then_fill :
  exists arr',
    run [reserve 5; push_token NODE_IDENT 0 1 1] fresh_arena = Returns [1; 6] arr'
    /\ count arr' = 7
    /\ map (NODE arr') [1; 2; 3; 4; 5] = repeat (Some zero_node) 5.
Proof. eexists. repeat split. Qed.

Example double_free :
  node_array_free fresh_arena = ([munmap ∅ (NODE_MAX_NODES * 16)], zeroed_arena)
  /\ node_array_free zeroed_arena = ([], zeroed_arena).
Proof. split; reflexivity. Qed.

(** * Further properties of node.c and node.h *)

(** ** Compound records *)

(** X1. A [node_push] that returns has written its six arguments as they are,
    the kind narrowed to eight bits; for an 8-bit kind [NODE_KIND] reads the
    pushed kind back. *)
Theorem node_push_record (arr : NodeArray) (k f o s d0 d1 idx : Z) (arr' : NodeArray) :
  node_push arr k f o s d0 d1 = Returns idx arr' ->
  NODE arr' idx = Some (mkNode (k mod 256) f o s d0 d1)
  /\ (is_u8 k -> NODE_KIND arr' idx = Some k).
Proof.
  intros H. invert_push H.
  split; [apply NODE_written; exact Hmap |].
  intros Hk. unfold NODE_KIND.
  rewrite NODE_written by exact Hmap. simpl.
  rewrite (u8_id k Hk). reflexivity.
Qed.

Lemma node_push_record_witness :
  exists arr',
    node_push two_numbers NODE_BINARY 0 NODE_PLUS 5 1 2 = Returns 3 arr'
    /\ NODE arr' 3 = Some (mkNode (NODE_BINARY mod 256) 0 NODE_PLUS 5 1 2)
    /\ (is_u8 NODE_BINARY -> NODE_KIND arr' 3 = Some NODE_BINARY).
Proof.
  eexists. split; [reflexivity |].
  apply (node_push_record two_numbers NODE_BINARY 0 NODE_PLUS 5 1 2 3).
  reflexivity.
Defined.

(** ** The three behaviours of [node_reserve] *)

Lemma u32_wrapped x : 2^32 <= x < 2 * 2^32 -> u32 x = x - 2^32.
Proof.
  unfold u32. change (2 ^ 32) with 4294967296. intros H.
  symmetry. apply (Z.mod_unique x 4294967296 1); lia.
Qed.

(** X2. On an arena that satisfies the invariant [node_reserve] does one of
    three things: the block fits and count advances by [n]; the block does
    not fit and the sum stays below 2^32, and the call aborts; or the sum
    reaches 2^32, and the call returns with count moved back by 2^32 - n. *)
Theorem node_reserve_cases (arr : NodeArray) (n : Z) :
  arena_inv arr -> is_u32 n ->
  node_reserve arr n =
    if count arr + n <=? capacity arr then
      Returns (count arr)
        {| nodes := nodes arr; count := count arr + n; capacity := capacity arr;
           token_end := token_end arr; root := root arr |}
    else if count arr + n <? 2^32 then
      Aborts (node_limit_exceeded (capacity arr))
    else
      Returns (count arr)
        {| nodes := nodes arr; count := count arr + n - 2^32;
           capacity := capacity arr;
           token_end := token_end arr; root := root arr |}.
Proof.
  intros (buf & Hb & Hcount & Hcapacity & _) Hn.
  pose proof NODE_MAX_NODES_eq as Hmax.
  unfold is_u32 in Hn. change (2 ^ 32) with 4294967296 in *.
  destruct (Z.leb_spec (count arr + n) (capacity arr)) as [Hfit | Hover].
  - apply node_reserve_no_wrap_room; [change (2 ^ 32) with 4294967296 |]; lia.
  - destruct (Z.ltb_spec (count arr + n) 4294967296) as [Hsmall | Hwrap].
    + apply node_reserve_no_wrap_full; [change (2 ^ 32) with 4294967296 |]; lia.
    + unfold node_reserve.
      rewrite u32_wrapped by (change (2 ^ 32) with 4294967296; lia).
      change (2 ^ 32) with 4294967296.
      replace (count arr + n - 4294967296 >? capacity arr) with false by lia.
      reflexivity.
Qed.

Lemma node_reserve_cases_witness :
  node_reserve two_numbers 4294967294 =
    if count two_numbers + 4294967294 <=? capacity two_numbers then
      Returns (count two_numbers)
        {| nodes := nodes two_numbers; count := count two_numbers + 4294967294;
           capacity := capacity two_numbers;
           token_end := token_end two_numbers; root := root two_numbers |}
    else if count two_numbers + 4294967294 <? 2^32 then
      Aborts (node_limit_exceeded (capacity two_numbers))
    else
      Returns (count two_numbers)
        {| nodes := nodes two_numbers;
           count := count two_numbers + 4294967294 - 2^32;
           capacity := capacity two_numbers;
           token_end := token_end two_numbers; root := root two_numbers |}.
Proof.
  apply (node_reserve_cases two_numbers 4294967294).
  - eexists. split; [reflexivity |]. simpl. rewrite NODE_MAX_NODES_eq.
    split; [lia |]. split; [reflexivity |].
    intros i Hi. rewrite !lookup_insert_ne by lia. apply lookup_empty.
  - unfold is_u32. lia.
Defined.

(** X3. A reserve of no slots changes nothing and returns the current count;
    on a full arena that index is one past the last slot of the mapping. *)
Theorem node_reserve_zero (arr : NodeArray) :
  arena_inv arr ->
  node_reserve arr 0 = Returns (count arr) arr
  /\ (count arr = capacity arr -> NODE arr (count arr) = None).
Proof.
  intros (buf & Hb & Hcount & Hcapacity & _).
  pose proof NODE_MAX_NODES_eq as Hmax.
  split.
  - rewrite node_reserve_no_wrap_room
      by (change (2 ^ 32) with 4294967296; lia).
    rewrite Z.add_0_r. destruct arr; reflexivity.
  - intros Hfull. unfold NODE. rewrite Hb.
    replace (in_mapping (count arr)) with false; [reflexivity |].
    symmetry. unfold in_mapping. lia.
Qed.

Lemma node_reserve_zero_witness :
  node_reserve fresh_arena 0 = Returns (count fresh_arena) fresh_arena
  /\ (count fresh_arena = capacity fresh_arena ->
      NODE fresh_arena (count fresh_arena) = None).
Proof. apply (node_reserve_zero fresh_arena). exact fresh_arena_inv. Defined.

(** X4. Two reserves in a row that fit leave the arena a single reserve of the
    sum leaves, and the second block starts where the first ends. *)
Theorem node_reserve_twice (arr : NodeArray) (a b : Z) :
  arena_inv arr -> 0 <= a -> 0 <= b -> count arr + a + b <= capacity arr ->
  exists arr1 arr2,
    node_reserve arr a = Returns (count arr) arr1
    /\ node_reserve arr1 b = Returns (count arr + a) arr2
    /\ node_reserve arr (a + b) = Returns (count arr) arr2.
Proof.
  intros (buf & Hb & Hcount & Hcapacity & _) Ha Hb' Hfit.
  pose proof NODE_MAX_NODES_eq as Hmax.
  eexists. eexists.
  split; [apply node_reserve_no_wrap_room;
          [change (2 ^ 32) with 4294967296 |]; lia |].
  split.
  - rewrite node_reserve_no_wrap_room; simpl;
      [reflexivity | change (2 ^ 32) with 4294967296; lia | lia].
  - rewrite node_reserve_no_wrap_room;
      [| change (2 ^ 32) with 4294967296; lia | lia].
    rewrite Z.add_assoc. reflexivity.
Qed.

Lemma node_reserve_twice_witness :
  exists arr1 arr2,
    node_reserve fresh_arena 5 = Returns (count fresh_arena) arr1
    /\ node_reserve arr1 10 = Returns (count fresh_arena + 5) arr2
    /\ node_reserve fresh_arena (5 + 10) = Returns (count fresh_arena) arr2.
Proof.
  apply (node_reserve_twice fresh_arena 5 10).
  - exact fresh_arena_inv.
  - lia.
  - lia.
  - simpl. rewrite NODE_MAX_NODES_eq. lia.
Defined.

(** ** Memory safety of the allocation calls *)

Lemma fresh_arena_reachable : reachable fresh_arena.
Proof. apply (reachable_init (mkOS true true) zeroed_arena 0). reflexivity. Qed.

(** Every reachable arena, wrapped reserves included, keeps its mapping,
    its capacity and a count between 0 and the capacity. *)
Lemma reachable_within_mapping arr : reachable arr -> within_mapping arr.
Proof.
  pose proof NODE_MAX_NODES_eq as Hmax.
  induction 1 as [os arr0 cap arr Hinit | arr r idx arr' _ IH _ Hstep].
  - rewrite (node_array_init_fresh _ _ _ _ Hinit).
    exists ∅. simpl. repeat split; lia.
  - destruct IH as (buf0 & Hb0 & Hcount & Hcapacity).
    destruct r as [k s l ln | k f o s d0 d1 | n]; simpl in Hstep.
    + invert_push Hstep. eexists. simpl.
      rewrite (u32_id (count arr + 1)) by (unfold is_u32; lia).
      split; [reflexivity |]. split; [lia | exact Hcapacity].
    + invert_push Hstep. eexists. simpl.
      rewrite (u32_id (count arr + 1)) by (unfold is_u32; lia).
      split; [reflexivity |]. split; [lia | exact Hcapacity].
    + unfold node_reserve in Hstep.
      destruct (u32 (count arr + n) >? capacity arr) eqn:Hfit;
        [discriminate Hstep |].
      injection Hstep as <- <-. exists buf0. simpl.
      pose proof (u32_range (count arr + n)) as Hr. unfold is_u32 in Hr.
      split; [exact Hb0 |]. split; [lia | exact Hcapacity].
Qed.

(** X5. No allocation call on a reachable arena reads or writes outside the
    mapping or through a NULL pointer, whatever its arguments: it returns or
    it aborts. *)
Theorem reachable_never_faults (arr : NodeArray) (r : request) :
  reachable arr -> perform r arr <> Faults.
Proof.
  intros Hreach.
  destruct (reachable_within_mapping arr Hreach) as (buf & Hb & Hcount & Hcapacity).
  pose proof NODE_MAX_NODES_eq as Hmax.
  destruct r as [k s l ln | k f o s d0 d1 | n]; simpl.
  - unfold node_push_token, write_slot. rewrite Hb.
    destruct (count arr >=? capacity arr) eqn:Hfull; [discriminate |].
    replace (in_mapping (count arr)) with true
      by (symmetry; apply in_mapping_iff; lia).
    discriminate.
  - unfold node_push, write_slot. rewrite Hb.
    destruct (count arr >=? capacity arr) eqn:Hfull; [discriminate |].
    replace (in_mapping (count arr)) with true
      by (symmetry; apply in_mapping_iff; lia).
    discriminate.
  - unfold node_reserve.
    destruct (u32 (count arr + n) >? capacity arr); discriminate.
Qed.

Lemma reachable_never_faults_witness :
  perform (push_token NODE_IDENT 10 5 1) stale_arena <> Faults.
Proof.
  apply (reachable_never_faults stale_arena (push_token NODE_IDENT 10 5 1)).
  apply (reachable_step
           {| nodes := Some (<[1 := mkNode NODE_NUMBER 0 5 10 1 0]> ∅);
              count := 2; capacity := NODE_MAX_NODES; token_end := 0; root := 0 |}
           (reserve 4294967295) 2).
  - apply (reachable_step fresh_arena (push_token NODE_NUMBER 10 5 1) 1).
    + apply (reachable_init (mkOS true true) zeroed_arena 64). reflexivity.
    + simpl. unfold is_u8, is_u32, NODE_NUMBER. lia.
    + reflexivity.
  - simpl. unfold is_u32. lia.
  - reflexivity.
Defined.

(** ** Destroying a used arena, and using a destroyed one *)

(** X6. Destroying any reachable arena makes exactly one [munmap] call, for the
    mapping the arena holds and the 256 MiB that were reserved, and leaves
    the zeroed structure. *)
Theorem node_array_free_unmaps_reservation (arr : NodeArray) :
  reachable arr ->
  exists buf, nodes arr = Some buf
    /\ node_array_free arr = ([munmap buf 268435456], zeroed_arena).
Proof.
  intros Hreach.
  destruct (reachable_within_mapping arr Hreach) as (buf & Hb & _ & Hcapacity).
  exists buf. split; [exact Hb |].
  unfold node_array_free. rewrite Hb, Hcapacity. reflexivity.
Qed.

Lemma node_array_free_unmaps_reservation_witness :
  exists buf, nodes fresh_arena = Some buf
    /\ node_array_free fresh_arena = ([munmap buf 268435456], zeroed_arena).
Proof.
  apply (node_array_free_unmaps_reservation fresh_arena).
  apply (reachable_init (mkOS true true) zeroed_arena 64). reflexivity.
Defined.

(** X7. On a destroyed arena both pushes abort, naming capacity 0, before they
    touch the NULL pointer; [node_reserve] aborts as well unless it is asked
    for no slots, when it returns index 0; and no slot can be read. *)
Theorem allocation_after_free (arr : NodeArray) (k s l ln f o d0 d1 n i : Z) :
  let dead := snd (node_array_free arr) in
  node_push_token dead k s l ln = Aborts (node_limit_exceeded 0)
  /\ node_push dead k f o s d0 d1 = Aborts (node_limit_exceeded 0)
  /\ node_reserve dead n
     = (if u32 n =? 0 then Returns 0 dead else Aborts (node_limit_exceeded 0))
  /\ NODE dead i = None.
Proof.
  simpl. repeat split.
  unfold node_reserve. simpl. rewrite Z.add_0_l.
  pose proof (u32_range n) as Hr. unfold is_u32 in Hr.
  destruct (Z.eqb_spec (u32 n) 0) as [Hz | Hnz].
  - rewrite Hz. reflexivity.
  - replace (u32 n >? 0) with true by lia. reflexivity.
Qed.

(** ** Sequences of calls that fit *)

Lemma slots_nonneg r : well_typed r -> 0 <= slots r.
Proof.
  destruct r; simpl; try lia. unfold is_u32. lia.
Qed.

Lemma total_nonneg rs : Forall well_typed rs -> 0 <= total rs.
Proof.
  induction 1 as [| r rs Hr _ IH]; simpl; [lia |].
  pose proof (slots_nonneg r Hr). lia.
Qed.

(** What one returning call leaves alone. *)
Lemma perform_below_count r arr idx arr' :
  perform r arr = Returns idx arr' ->
  capacity arr' = capacity arr /\ token_end arr' = token_end arr
  /\ root arr' = root arr
  /\ forall i, i < count arr -> NODE arr' i = NODE arr i.
Proof.
  intros H. destruct r as [k s l ln | k f o s d0 d1 | n]; simpl in H.
  - invert_push H. simpl. repeat split.
    intros i Hi. apply NODE_other; [lia | exact Hbuf].
  - invert_push H. simpl. repeat split.
    intros i Hi. apply NODE_other; [lia | exact Hbuf].
  - unfold node_reserve in H.
    destruct (u32 (count arr + n) >? capacity arr); [discriminate H |].
    injection H as <- <-. simpl. repeat split.
Qed.

(** A call whose slots fit returns the old count. *)
Lemma perform_fits r arr :
  arena_inv arr -> well_typed r -> count arr + slots r <= capacity arr ->
  exists arr',
    perform r arr = Returns (count arr) arr'
    /\ arena_inv arr' /\ count arr' = count arr + slots r.
Proof.
  intros Hinv Hty Hfit.
  pose proof NODE_MAX_NODES_eq as Hmax.
  assert (Hret : exists arr', perform r arr = Returns (count arr) arr').
  { destruct r as [k s l ln | k f o s d0 d1 | n]; simpl in *.
    - destruct (node_push_token_room arr k s l ln Hinv) as (a & Ha & _);
        [lia | exists a; exact Ha].
    - destruct (node_push_room arr k f o s d0 d1 Hinv) as (a & Ha & _);
        [lia | exists a; exact Ha].
    - destruct Hinv as (buf & _ & Hcount & Hcapacity & _).
      unfold is_u32 in Hty. eexists.
      apply node_reserve_no_wrap_room;
        [change (2 ^ 32) with 4294967296 |]; lia. }
  destruct Hret as (arr' & Hret). exists arr'.
  split; [exact Hret |].
  assert (Hnw : no_wrap r arr).
  { destruct r; simpl; try exact I.
    destruct Hinv as (buf & _ & Hcount & Hcapacity & _).
    simpl in Hfit. change (2 ^ 32) with 4294967296. lia. }
  destruct (perform_keeps_inv r arr (count arr) arr' Hinv Hty Hnw Hret)
    as (Hinv' & _ & _ & Hc).
  split; [exact Hinv' |]. destruct r; exact Hc.
Qed.

(** The whole sequence, by induction on it. *)
Lemma run_fits rs : forall arr,
  arena_inv arr -> Forall well_typed rs ->
  count arr + total rs <= capacity arr ->
  exists arr',
    run rs arr = Returns (indices (count arr) rs) arr'
    /\ arena_inv arr'
    /\ count arr' = count arr + total rs
    /\ capacity arr' = capacity arr /\ token_end arr' = token_end arr
    /\ root arr' = root arr
    /\ forall i, i < count arr -> NODE arr' i = NODE arr i.
Proof.
  induction rs as [| r rs IH]; intros arr Hinv Hty Hfit; simpl in *.
  - exists arr. rewrite Z.add_0_r. repeat split. exact Hinv.
  - inversion Hty as [| ? ? Hr Hrs]; subst.
    pose proof (total_nonneg rs Hrs) as Htot.
    pose proof (slots_nonneg r Hr) as Hslots.
    destruct (perform_fits r arr Hinv Hr) as (arr1 & Hstep & Hinv1 & Hc1);
      [lia |].
    destruct (perform_below_count r arr _ arr1 Hstep) as (Hcap1 & Hte1 & Hrt1 & Hn1).
    destruct (IH arr1 Hinv1 Hrs) as (arr2 & Hrun & Hinv2 & Hc2 & Hcap2 & Hte2 & Hrt2 & Hn2);
      [lia |].
    exists arr2. rewrite Hstep, Hrun, Hc1.
    split; [reflexivity |]. split; [exact Hinv2 |].
    split; [lia |]. split; [congruence |]. split; [congruence |].
    split; [congruence |].
    intros i Hi. rewrite Hn2 by lia. apply Hn1. exact Hi.
Qed.

(** X8. Calls that together ask for no more slots than are left all return:
    the indices they return are the starts of consecutive blocks from the
    old count on, and count ends advanced by the total. *)
Theorem run_within_capacity (rs : list request) (arr : NodeArray) :
  arena_inv arr -> Forall well_typed rs ->
  count arr + total rs <= capacity arr ->
  exists arr',
    run rs arr = Returns (indices (count arr) rs) arr'
    /\ count arr' = count arr + total rs
    /\ arena_inv arr'.
Proof.
  intros Hinv Hty Hfit.
  destruct (run_fits rs arr Hinv Hty Hfit) as (arr' & Hrun & Hinv' & Hc & _).
  exists arr'. repeat split; assumption.
Qed.

Lemma run_within_capacity_witness :
  exists arr',
    run [reserve 5; push_token NODE_IDENT 0 1 1; push_compound NODE_BINARY 0 NODE_PLUS 5 1 2]
        fresh_arena
    = Returns (indices (count fresh_arena)
                 [reserve 5; push_token NODE_IDENT 0 1 1;
                  push_compound NODE_BINARY 0 NODE_PLUS 5 1 2]) arr'
    /\ count arr'
       = count fresh_arena
         + total [reserve 5; push_token NODE_IDENT 0 1 1;
                  push_compound NODE_BINARY 0 NODE_PLUS 5 1 2]
    /\ arena_inv arr'.
Proof.
  apply (run_within_capacity
           [reserve 5; push_token NODE_IDENT 0 1 1;
            push_compound NODE_BINARY 0 NODE_PLUS 5 1 2] fresh_arena).
  - exact fresh_arena_inv.
  - repeat constructor;
      unfold is_u8, is_u16, is_u32, NODE_IDENT, NODE_BINARY, NODE_PLUS; lia.
  - simpl. rewrite NODE_MAX_NODES_eq. lia.
Defined.

(** X9. Such a sequence leaves every record below the count it started from,
    and token_end, root and capacity, as they were: what was pushed before
    stays readable at its index. *)
Theorem run_keeps_earlier_records (rs : list request) (arr : NodeArray) :
  arena_inv arr -> Forall well_typed rs ->
  count arr + total rs <= capacity arr ->
  exists idxs arr',
    run rs arr = Returns idxs arr'
    /\ (forall i, i < count arr -> NODE arr' i = NODE arr i)
    /\ capacity arr' = capacity arr /\ token_end arr' = token_end arr
    /\ root arr' = root arr.
Proof.
  intros Hinv Hty Hfit.
  destruct (run_fits rs arr Hinv Hty Hfit)
    as (arr' & Hrun & _ & _ & Hcap & Hte & Hrt & Hn).
  exists (indices (count arr) rs), arr'. repeat split; assumption.
Qed.

Lemma two_numbers_inv : arena_inv two_numbers.
Proof.
  eexists. split; [reflexivity |]. simpl. rewrite NODE_MAX_NODES_eq.
  split; [lia |]. split; [reflexivity |].
  intros i Hi. rewrite !lookup_insert_ne by lia. apply lookup_empty.
Qed.

Lemma run_keeps_earlier_records_witness :
  exists idxs arr',
    run [push_compound NODE_BINARY 0 NODE_PLUS 5 1 2; reserve 3] two_numbers
    = Returns idxs arr'
    /\ (forall i, i < count two_numbers -> NODE arr' i = NODE two_numbers i)
    /\ capacity arr' = capacity two_numbers
    /\ token_end arr' = token_end two_numbers
    /\ root arr' = root two_numbers.
Proof.
  apply (run_keeps_earlier_records
           [push_compound NODE_BINARY 0 NODE_PLUS 5 1 2; reserve 3] two_numbers).
  - exact two_numbers_inv.
  - repeat constructor;
      unfold is_u8, is_u16, is_u32, NODE_BINARY, NODE_PLUS; lia.
  - simpl. rewrite NODE_MAX_NODES_eq. lia.
Defined.

(** ** Sequences of calls that do not fit *)

(** X10. When the calls together ask for more slots than are left, and no single
    reserve is large enough to wrap the 32-bit sum, the run aborts with the
    diagnostic at the first call that does not fit. *)
Theorem run_beyond_capacity (rs : list request) (arr : NodeArray) :
  arena_inv arr -> Forall well_typed rs -> Forall cannot_wrap rs ->
  capacity arr < count arr + total rs ->
  run rs arr = Aborts (node_limit_exceeded (capacity arr)).
Proof.
  pose proof NODE_MAX_NODES_eq as Hmax.
  revert arr. induction rs as [| r rs IH]; intros arr Hinv Hty Hcw Hover; simpl in *.
  - destruct Hinv as (buf & _ & Hcount & _). lia.
  - inversion Hty as [| ? ? Hr Hrs]; subst.
    inversion Hcw as [| ? ? Hcr Hcrs]; subst.
    destruct (Z.leb_spec (count arr + slots r) (capacity arr)) as [Hfit | Hnofit].
    + destruct (perform_fits r arr Hinv Hr Hfit) as (arr1 & Hstep & Hinv1 & Hc1).
      destruct (perform_below_count r arr _ arr1 Hstep) as (Hcap1 & _).
      rewrite Hstep, (IH arr1 Hinv1 Hrs Hcrs) by lia.
      rewrite Hcap1. reflexivity.
    + assert (Habort : perform r arr = Aborts (node_limit_exceeded (capacity arr))).
      { destruct r as [k s l ln | k f o s d0 d1 | n]; simpl in *.
        - apply node_push_token_full. lia.
        - apply node_push_full. lia.
        - destruct Hinv as (buf & _ & Hcount & Hcapacity & _).
          unfold cannot_wrap, is_u32 in *. simpl in Hcr.
          change (2 ^ 32) with 4294967296 in *.
          apply node_reserve_no_wrap_full;
            [change (2 ^ 32) with 4294967296 |]; lia. }
      rewrite Habort. reflexivity.
Qed.

Lemma run_beyond_capacity_witness :
  run [reserve 16777214; push_token NODE_IDENT 0 1 1; push_token NODE_IDENT 2 1 1]
      fresh_arena
  = Aborts (node_limit_exceeded (capacity fresh_arena)).
Proof.
  apply (run_beyond_capacity
           [reserve 16777214; push_token NODE_IDENT 0 1 1;
            push_token NODE_IDENT 2 1 1] fresh_arena).
  - exact fresh_arena_inv.
  - repeat constructor; unfold is_u8, is_u32, NODE_IDENT; lia.
  - repeat constructor; unfold cannot_wrap; simpl;
      rewrite NODE_MAX_NODES_eq; lia.
  - simpl. rewrite NODE_MAX_NODES_eq. lia.
Defined.

(** ** The null record *)

Lemma null_record_kept arr :
  reachable_no_wrap arr -> NODE arr 0 = Some zero_node.
Proof.
  induction 1 as [os arr0 cap arr Hinit | arr r idx arr' Hreach IH Hty Hnw Hstep].
  - rewrite (node_array_init_fresh _ _ _ _ Hinit). reflexivity.
  - destruct (reachable_no_wrap_inv arr Hreach) as (buf & _ & Hcount & _).
    destruct (perform_below_count r arr idx arr' Hstep) as (_ & _ & _ & Hn).
    rewrite Hn by lia. exact IH.
Qed.

(** X11. Along calls whose arithmetic stays within 32 bits the record at index 0
    reads as all-zero before and after every call, and every index a call
    returns passes [NODE_VALID]. *)
Theorem null_index_never_allocated
    (arr : NodeArray) (r : request) (idx : Z) (arr' : NodeArray) :
  reachable_no_wrap arr -> well_typed r -> no_wrap r arr ->
  perform r arr = Returns idx arr' ->
  NODE_VALID idx = true
  /\ NODE arr 0 = Some zero_node
  /\ NODE arr' 0 = Some zero_node.
Proof.
  intros Hreach Hty Hnw Hstep.
  pose proof (reachable_no_wrap_inv arr Hreach) as Hinv.
  destruct (perform_keeps_inv r arr idx arr' Hinv Hty Hnw Hstep)
    as (_ & _ & Hpos & _).
  split; [unfold NODE_VALID; lia |].
  split; [exact (null_record_kept arr Hreach) |].
  apply null_record_kept.
  exact (reachable_no_wrap_step arr r idx arr' Hreach Hty Hnw Hstep).
Qed.

Lemma null_index_never_allocated_witness :
  exists arr',
    perform (push_token NODE_IDENT 10 5 1) fresh_arena = Returns 1 arr'
    /\ NODE_VALID 1 = true
    /\ NODE fresh_arena 0 = Some zero_node
    /\ NODE arr' 0 = Some zero_node.
Proof.
  eexists. split; [reflexivity |].
  apply (null_index_never_allocated fresh_arena (push_token NODE_IDENT 10 5 1) 1).
  - apply (reachable_no_wrap_init (mkOS false true) zeroed_arena 64). reflexivity.
  - simpl. unfold is_u8, is_u32, NODE_IDENT. lia.
  - exact I.
  - reflexivity.
Defined.

(** ** The enumerators of [NodeKind] *)

Lemma assoc_In name vs v :
  NodeKind.assoc name vs = Some v -> In (name, v) vs.
Proof.
  induction vs as [| [n w] vs IH]; simpl; [discriminate |].
  destruct (String.eqb_spec n name) as [-> | Hne].
  - intros H. injection H as ->. left. reflexivity.
  - intros H. right. apply IH. exact H.
Qed.

Lemma values_NoDup : NoDup (map snd NodeKind.values).
Proof. apply (bool_decide_unpack _). vm_compute. exact I. Qed.

Lemma values_bounded :
  Forall (fun p : string * Z => 0 <= snd p <= 182) NodeKind.values.
Proof. apply (bool_decide_unpack _). vm_compute. exact I. Qed.

Lemma same_value_same_name (vs : list (string * Z)) a b v :
  NoDup (map snd vs) -> In (a, v) vs -> In (b, v) vs -> a = b.
Proof.
  induction vs as [| [n w] vs IH]; simpl; [intros _ [] |].
  intros Hnd Ha Hb. inversion Hnd as [| ? ? Hnotin Hnd']; subst.
  assert (Hin : forall c, In (c, w) vs -> False).
  { intros c Hc. apply Hnotin. apply list_elem_of_In.
    apply (in_map snd) in Hc. exact Hc. }
  destruct Ha as [Ha | Ha], Hb as [Hb | Hb].
  - congruence.
  - injection Ha as -> ->. exfalso. exact (Hin b Hb).
  - injection Hb as -> ->. exfalso. exact (Hin a Ha).
  - exact (IH Hnd' Ha Hb).
Qed.

(** X12. No two enumerators of [NodeKind] have the same value: the explicit
    initialisers 16, 56, 72, 127 and 128 all lie beyond the run before
    them. *)
Theorem enumerator_values_distinct (a b : string) (v : Z) :
  NodeKind.value_of a = Some v -> NodeKind.value_of b = Some v -> a = b.
Proof.
  unfold NodeKind.value_of. intros Ha Hb.
  apply (same_value_same_name NodeKind.values a b v values_NoDup);
    apply assoc_In; assumption.
Qed.

Lemma enumerator_values_distinct_witness :
  "NODE_EOF"%string = "NODE_EOF"%string.
Proof.
  apply (enumerator_values_distinct "NODE_EOF" "NODE_EOF" 127); reflexivity.
Defined.

(** X13. Every enumerator fits the 8-bit kind field, the largest being
    NODE_COUNT = 182: a record pushed with a named kind reads that kind
    back through [NODE_KIND]. *)
Theorem named_kind_is_stored
    (name : string) (v : Z) (arr : NodeArray) (f o s d0 d1 idx : Z) (arr' : NodeArray) :
  NodeKind.value_of name = Some v ->
  node_push arr v f o s d0 d1 = Returns idx arr' ->
  0 <= v <= 182
  /\ NodeKind.value_of "NODE_COUNT" = Some 182
  /\ NODE_KIND arr' idx = Some v.
Proof.
  intros Hv H.
  assert (Hbound : 0 <= v <= 182).
  { apply assoc_In, list_elem_of_In in Hv.
    exact (proj1 (Forall_forall _ _) values_bounded (name, v) Hv). }
  split; [exact Hbound |]. split; [reflexivity |].
  invert_push H. unfold NODE_KIND.
  rewrite NODE_written by exact Hmap. simpl.
  rewrite u8_id by (unfold is_u8; lia). reflexivity.
Qed.

Lemma named_kind_is_stored_witness :
  exists arr',
    node_push fresh_arena 181 0 0 0 1 0 = Returns 1 arr'
    /\ 0 <= 181 <= 182
    /\ NodeKind.value_of "NODE_COUNT" = Some 182
    /\ NODE_KIND arr' 1 = Some 181.
Proof.
  eexists. split; [reflexivity |].
  apply (named_kind_is_stored "NODE_PROGRAM" 181 fresh_arena 0 0 0 1 0 1);
    reflexivity.
Defined.

(** Settles a goal about the value of an enumerator of one group by going
    through the group. *)
Ltac by_enumeration Hin Hv :=
  simpl in Hin;
  repeat (destruct Hin as [<- | Hin];
          [vm_compute in Hv; injection Hv as <-; reflexivity |]);
  contradiction.

(** X14. Each group of the declaration lies in the range its classification
    macro tests: the leaves satisfy [IS_LEAF], the keywords [IS_KEYWORD],
    the punctuation [IS_PUNCT], the operators [IS_OPERATOR], NODE_EOF is the
    end-of-input kind, all of these satisfy [IS_TOKEN], and the compounds
    satisfy [IS_COMPOUND]. *)
Theorem group_classification (name : string) (v : Z) :
  NodeKind.value_of name = Some v ->
  (In name (NodeKind.names NodeKind.leaves) -> IS_LEAF v = true /\ IS_TOKEN v = true)
  /\ (In name (NodeKind.names NodeKind.keywords) ->
      IS_KEYWORD v = true /\ IS_TOKEN v = true)
  /\ (In name (NodeKind.names NodeKind.punctuation) ->
      IS_PUNCT v = true /\ IS_TOKEN v = true)
  /\ (In name (NodeKind.names NodeKind.operators) ->
      IS_OPERATOR v = true /\ IS_TOKEN v = true)
  /\ (In name (NodeKind.names NodeKind.end_of_input) ->
      is_eof v = true /\ IS_TOKEN v = true)
  /\ (In name (NodeKind.names NodeKind.compounds) ->
      IS_COMPOUND v = true /\ IS_TOKEN v = false).
Proof.
  intros Hv.
  repeat match goal with |- _ /\ _ => split end;
    intros Hin; split; by_enumeration Hin Hv.
Qed.

Lemma group_classification_witness :
  (In "NODE_KW_YIELD"%string (NodeKind.names NodeKind.leaves) ->
     IS_LEAF 50 = true /\ IS_TOKEN 50 = true)
  /\ (In "NODE_KW_YIELD"%string (NodeKind.names NodeKind.keywords) ->
      IS_KEYWORD 50 = true /\ IS_TOKEN 50 = true)
  /\ (In "NODE_KW_YIELD"%string (NodeKind.names NodeKind.punctuation) ->
      IS_PUNCT 50 = true /\ IS_TOKEN 50 = true)
  /\ (In "NODE_KW_YIELD"%string (NodeKind.names NodeKind.operators) ->
      IS_OPERATOR 50 = true /\ IS_TOKEN 50 = true)
  /\ (In "NODE_KW_YIELD"%string (NodeKind.names NodeKind.end_of_input) ->
      is_eof 50 = true /\ IS_TOKEN 50 = true)
  /\ (In "NODE_KW_YIELD"%string (NodeKind.names NodeKind.compounds) ->
      IS_COMPOUND 50 = true /\ IS_TOKEN 50 = false).
Proof. apply (group_classification "NODE_KW_YIELD" 50). reflexivity. Defined.

(** The kinds written out in [Kind] are the values the declaration gives. *)
Example Kind_values :
  map NodeKind.value_of
    ["NODE_IDENT"; "NODE_NUMBER"; "NODE_STRING"; "NODE_KW_ASYNC";
     "NODE_LBRACE"; "NODE_PLUS"; "NODE_EOF"; "NODE_BINARY"]%string
  = map Some [NODE_IDENT; NODE_NUMBER; NODE_STRING; NODE_KW_ASYNC;
              NODE_LBRACE; NODE_PLUS; NODE_EOF; NODE_BINARY].
Proof. reflexivity. Qed.

(** ** Flags *)

Lemma flags_disjoint f g :
  In f NODE_FLAGS -> In g NODE_FLAGS -> f <> g -> Z.land f g = 0.
Proof.
  unfold NODE_FLAGS. simpl. intros Hf Hg Hne.
  repeat (destruct Hf as [<- | Hf]; [| try contradiction]);
    repeat (destruct Hg as [<- | Hg]; [| try contradiction]);
    first [reflexivity | contradiction].
Qed.

Lemma flags_are_u8 f : In f NODE_FLAGS -> is_u8 f.
Proof.
  unfold NODE_FLAGS, is_u8. simpl. intros Hf.
  repeat (destruct Hf as [<- | Hf]; [vm_compute; split; congruence |]).
  contradiction.
Qed.

Lemma lor_u8 v f : is_u8 v -> is_u8 f -> is_u8 (Z.lor v f).
Proof.
  unfold is_u8. intros Hv Hf.
  assert (H : Z.lor v f = Z.lor v f mod 2^8).
  { rewrite <- Z.land_ones by lia.
    rewrite Z.land_lor_distr_l, !Z.land_ones by lia.
    rewrite (Z.mod_small v), (Z.mod_small f) by assumption. reflexivity. }
  rewrite H. apply Z.mod_pos_bound. lia.
Qed.

Lemma land_lor_same v f : Z.land (Z.lor v f) f = f.
Proof.
  apply Z.bits_inj'. intros n _.
  rewrite Z.land_spec, Z.lor_spec.
  destruct (Z.testbit v n), (Z.testbit f n); reflexivity.
Qed.

(** X15. The eight flags are separate bits of one byte: or-ing a flag into a
    flags byte sets that flag, leaves the test of every other flag as it
    was, and keeps the value within eight bits; all eight together are
    0xFF. *)
Theorem flags_independent (v f g : Z) :
  is_u8 v -> In f NODE_FLAGS -> In g NODE_FLAGS -> f <> g ->
  Z.land (Z.lor v f) f = f
  /\ Z.land (Z.lor v f) g = Z.land v g
  /\ is_u8 (Z.lor v f)
  /\ fold_right Z.lor 0 NODE_FLAGS = 0xFF.
Proof.
  intros Hv Hf Hg Hne.
  split; [| split; [| split]].
  - apply land_lor_same.
  - rewrite Z.land_lor_distr_l, (flags_disjoint f g Hf Hg Hne).
    apply Z.lor_0_r.
  - apply lor_u8; [exact Hv | apply flags_are_u8; exact Hf].
  - reflexivity.
Qed.

Lemma flags_independent_witness :
  Z.land (Z.lor 5 NODE_FLAG_GENERATOR) NODE_FLAG_GENERATOR = NODE_FLAG_GENERATOR
  /\ Z.land (Z.lor 5 NODE_FLAG_GENERATOR) NODE_FLAG_CONST = Z.land 5 NODE_FLAG_CONST
  /\ is_u8 (Z.lor 5 NODE_FLAG_GENERATOR)
  /\ fold_right Z.lor 0 NODE_FLAGS = 0xFF.
Proof.
  apply (flags_independent 5 NODE_FLAG_GENERATOR NODE_FLAG_CONST).
  - unfold is_u8. lia.
  - unfold NODE_FLAGS. simpl. tauto.
  - unfold NODE_FLAGS. simpl. tauto.
  - discriminate.
Defined.

(** ** The record [EMIT] writes *)

(** X16. With room left on an arena that satisfies the invariant, EMIT returns,
    advances count by one and writes at the old count a record from which
    kind, start, line and end offset read back: [NODE_END] is [e], and
    [NODE_LEN] is [e - s] on 32 bits, which is [e - s] when [s <= e]. *)
Theorem EMIT_record (lex : Lexer.Lexer) (k s e : Z) :
  arena_inv (Lexer.nodes lex) ->
  count (Lexer.nodes lex) < capacity (Lexer.nodes lex) ->
  is_u8 k -> is_u32 s -> is_u32 e ->
  exists arr' n,
    EMIT lex k s e = Returns tt arr'
    /\ count arr' = count (Lexer.nodes lex) + 1
    /\ NODE arr' (count (Lexer.nodes lex)) = Some n
    /\ kind n = k /\ flags n = 0 /\ start n = s /\ data0 n = Lexer.line lex
    /\ NODE_END n = e /\ TOKEN_END n = e
    /\ NODE_LEN n = u32 (e - s)
    /\ (s <= e -> NODE_LEN n = e - s).
Proof.
  intros (buf & Hb & Hcount & Hcapacity & _) Hroom Hk Hs He.
  pose proof NODE_MAX_NODES_eq as Hmax.
  pose proof (u32_range (e - s)) as Hlen. unfold is_u32 in Hlen.
  unfold EMIT, write_slot. rewrite Hb.
  replace (count (Lexer.nodes lex) <? capacity (Lexer.nodes lex)) with true by lia.
  replace (in_mapping (count (Lexer.nodes lex))) with true
    by (symmetry; apply in_mapping_iff; lia).
  eexists. eexists. split; [reflexivity |].
  split; [simpl; apply u32_id; unfold is_u32; lia |].
  split; [apply NODE_written; apply in_mapping_iff; lia |].
  simpl. rewrite (u8_id k Hk).
  assert (Hend :
    (if (if u32 (e - s) <=? 65534 then u16 (u32 (e - s)) else NODE_LEN_OVERFLOW)
        =? NODE_LEN_OVERFLOW
     then if u32 (e - s) >? 65534 then e else 0
     else u32 (s + (if u32 (e - s) <=? 65534 then u16 (u32 (e - s))
                    else NODE_LEN_OVERFLOW))) = e).
  { unfold NODE_LEN_OVERFLOW.
    destruct (Z.leb_spec (u32 (e - s)) 65534) as [Hle | Hgt].
    - rewrite (u16_id (u32 (e - s))) by (unfold is_u16; lia).
      destruct (Z.eqb_spec (u32 (e - s)) 65535); [lia |].
      apply u32_sub_add. exact He.
    - simpl. destruct (Z.gtb_spec (u32 (e - s)) 65534); [reflexivity | lia]. }
  unfold NODE_LEN, TOKEN_END, NODE_END. simpl. rewrite Hend.
  repeat split.
  intros Hse. apply u32_id. unfold is_u32 in *. lia.
Qed.

Lemma EMIT_record_witness :
  exists arr' n,
    EMIT (Lexer.mk two_numbers 9) NODE_STRING 100 70100 = Returns tt arr'
    /\ count arr' = count two_numbers + 1
    /\ NODE arr' (count two_numbers) = Some n
    /\ kind n = NODE_STRING /\ flags n = 0 /\ start n = 100 /\ data0 n = 9
    /\ NODE_END n = 70100 /\ TOKEN_END n = 70100
    /\ NODE_LEN n = u32 (70100 - 100)
    /\ (100 <= 70100 -> NODE_LEN n = 70100 - 100).
Proof.
  apply (EMIT_record (Lexer.mk two_numbers 9) NODE_STRING 100 70100).
  - exact two_numbers_inv.
  - simpl. rewrite NODE_MAX_NODES_eq. lia.
  - unfold is_u8, NODE_STRING. lia.
  - unfold is_u32. lia.
  - unfold is_u32. lia.
Defined.

(** X17. On a full arena EMIT leaves the inline path and aborts with the
    diagnostic of [node_push_token]; nothing is written. *)
Theorem EMIT_full (lex : Lexer.Lexer) (k s e : Z) :
  count (Lexer.nodes lex) >= capacity (Lexer.nodes lex) ->
  EMIT lex k s e = Aborts (node_limit_exceeded (capacity (Lexer.nodes lex))).
Proof.
  intros Hfull. unfold EMIT.
  replace (count (Lexer.nodes lex) <? capacity (Lexer.nodes lex)) with false by lia.
  rewrite node_push_token_full by exact Hfull. reflexivity.
Qed.

Lemma EMIT_full_witness :
  EMIT (Lexer.mk zeroed_arena 1) NODE_IDENT 0 3
  = Aborts (node_limit_exceeded (capacity zeroed_arena)).
Proof.
  apply (EMIT_full (Lexer.mk zeroed_arena 1) NODE_IDENT 0 3). simpl. lia.
Defined.

(** ** Decoding token records *)

(** X18. The end offset of a pushed token is [start + len] exactly as long as
    that sum stays below 2^32; beyond, it comes out 2^32 too small and so
    below the start. *)
Theorem token_end_exact (arr : NodeArray) (k s l ln idx : Z) (arr' : NodeArray) :
  is_u32 s -> is_u32 l ->
  node_push_token arr k s l ln = Returns idx arr' ->
  exists n, NODE arr' idx = Some n
    /\ (s + l < 2^32 -> NODE_END n = s + l /\ s <= NODE_END n)
    /\ (2^32 <= s + l -> NODE_END n = s + l - 2^32 /\ NODE_END n < s).
Proof.
  intros Hs Hl H. invert_push H.
  eexists. split; [apply NODE_written; exact Hmap |].
  unfold NODE_END, NODE_LEN_OVERFLOW. simpl.
  assert (Hend :
    (if (if l <=? 65534 then u16 l else 65535) =? 65535
     then if l >? 65534 then u32 (s + l) else 0
     else u32 (s + (if l <=? 65534 then u16 l else 65535))) = u32 (s + l)).
  { destruct (Z.leb_spec l 65534) as [Hle | Hgt].
    - rewrite (u16_id l) by (unfold is_u16, is_u32 in *; lia).
      destruct (Z.eqb_spec l 65535); [lia | reflexivity].
    - simpl. destruct (Z.gtb_spec l 65534); [reflexivity | lia]. }
  rewrite Hend. unfold is_u32 in *. change (2 ^ 32) with 4294967296 in *.
  split; intros Hsum.
  - rewrite u32_id by (unfold is_u32; change (2 ^ 32) with 4294967296; lia). lia.
  - rewrite u32_wrapped by (change (2 ^ 32) with 4294967296; lia).
    change (2 ^ 32) with 4294967296. lia.
Qed.

Lemma token_end_exact_witness :
  exists arr',
    node_push_token fresh_arena NODE_STRING 4294967290 10 1 = Returns 1 arr'
    /\ exists n, NODE arr' 1 = Some n
         /\ (4294967290 + 10 < 2^32 ->
             NODE_END n = 4294967290 + 10 /\ 4294967290 <= NODE_END n)
         /\ (2^32 <= 4294967290 + 10 ->
             NODE_END n = 4294967290 + 10 - 2^32 /\ NODE_END n < 4294967290).
Proof.
  eexists. split; [reflexivity |].
  apply (token_end_exact fresh_arena NODE_STRING 4294967290 10 1 1).
  - unfold is_u32. lia.
  - unfold is_u32. lia.
  - reflexivity.
Defined.

(** X19. For any record whose op is below the overflow sentinel, however it was
    written, the derived length is op itself, even where start + op wraps;
    with the sentinel in op it is data[1] - start on 32 bits. *)
Theorem NODE_LEN_decodes (n : Node) :
  is_u16 (op n) ->
  (op n <> NODE_LEN_OVERFLOW -> NODE_LEN n = op n)
  /\ (op n = NODE_LEN_OVERFLOW -> NODE_LEN n = u32 (data1 n - start n)).
Proof.
  unfold is_u16, NODE_LEN, NODE_END, NODE_LEN_OVERFLOW. intros Hop.
  change (2 ^ 16) with 65536 in Hop.
  split; intros H.
  - destruct (Z.eqb_spec (op n) 65535); [contradiction |].
    apply u32_add_sub. unfold is_u32. change (2 ^ 32) with 4294967296. lia.
  - rewrite H. reflexivity.
Qed.

Lemma NODE_LEN_decodes_witness :
  (op (mkNode NODE_BINARY 0 NODE_PLUS 4294967295 1 2) <> NODE_LEN_OVERFLOW ->
   NODE_LEN (mkNode NODE_BINARY 0 NODE_PLUS 4294967295 1 2)
   = op (mkNode NODE_BINARY 0 NODE_PLUS 4294967295 1 2))
  /\ (op (mkNode NODE_BINARY 0 NODE_PLUS 4294967295 1 2) = NODE_LEN_OVERFLOW ->
      NODE_LEN (mkNode NODE_BINARY 0 NODE_PLUS 4294967295 1 2)
      = u32 (data1 (mkNode NODE_BINARY 0 NODE_PLUS 4294967295 1 2)
             - start (mkNode NODE_BINARY 0 NODE_PLUS 4294967295 1 2))).
Proof.
  apply (NODE_LEN_decodes (mkNode NODE_BINARY 0 NODE_PLUS 4294967295 1 2)).
  unfold is_u16, NODE_PLUS. simpl. lia.
Defined.

(** ** Reading back what a sequence pushed *)

(** The [j]-th call of a sequence that fits: the state it ran in, the state
    it left, and what the rest of the sequence kept of it. *)
Lemma run_fits_at rs : forall arr (j : nat) r,
  arena_inv arr -> Forall well_typed rs ->
  count arr + total rs <= capacity arr ->
  rs !! j = Some r ->
  exists arr0 arr1 arr',
    perform r arr0 = Returns (count arr0) arr1
    /\ count arr1 = count arr0 + slots r
    /\ run rs arr = Returns (indices (count arr) rs) arr'
    /\ indices (count arr) rs !! j = Some (count arr0)
    /\ forall i, i < count arr1 -> NODE arr' i = NODE arr1 i.
Proof.
  induction rs as [| r0 rs IH]; intros arr j r Hinv Hty Hfit Hj;
    [discriminate Hj |].
  inversion Hty as [| ? ? Hr0 Hrs]; subst. simpl in Hfit.
  pose proof (total_nonneg rs Hrs) as Htot.
  pose proof (slots_nonneg r0 Hr0) as Hslots.
  destruct (perform_fits r0 arr Hinv Hr0) as (arr1 & Hstep & Hinv1 & Hc1);
    [lia |].
  destruct (perform_below_count r0 arr _ arr1 Hstep) as (Hcap1 & _).
  destruct j as [| j]; simpl in Hj.
  - injection Hj as <-.
    destruct (run_fits rs arr1 Hinv1 Hrs) as (arr' & Hrun & _ & _ & _ & _ & _ & Hn);
      [lia |].
    exists arr, arr1, arr'. simpl. rewrite Hstep, <- Hc1, Hrun.
    repeat split; try reflexivity. exact Hn.
  - destruct (IH arr1 j r Hinv1 Hrs) as (a0 & a1 & arr' & Hp & Hc & Hrun & Hidx & Hn);
      [lia | exact Hj |].
    exists a0, a1, arr'. simpl. rewrite Hstep, Hrun, <- Hc1.
    repeat split; try assumption.
Qed.

(** As [invert_push], for a hypothesis whose returned index is already
    known to be the old count. *)
Ltac invert_push_at_count H :=
  unfold node_push_token, node_push, write_slot in H;
  let Hcap := fresh "Hcap" in
  let Hbuf := fresh "Hbuf" in
  let Hmap := fresh "Hmap" in
  destruct (count _ >=? capacity _) eqn:Hcap; [discriminate H |];
  destruct (nodes _) as [?buf |] eqn:Hbuf; [| discriminate H];
  destruct (in_mapping _) eqn:Hmap; [| discriminate H];
  injection H as <-.

(** X20. In a sequence of calls that fits, every push can be read back when the
    sequence is over, at the index that was returned for it: a compound
    record holds the six arguments, and a token record holds kind, start and
    line and decodes to the pushed length. *)
Theorem pushed_records_readable (rs : list request) (arr : NodeArray) (j : nat) :
  arena_inv arr -> Forall well_typed rs ->
  count arr + total rs <= capacity arr ->
  (j < length rs)%nat ->
  exists idxs arr' r idx,
    run rs arr = Returns idxs arr'
    /\ rs !! j = Some r /\ idxs !! j = Some idx
    /\ match r with
       | push_compound k f o s d0 d1 =>
           NODE arr' idx = Some (mkNode k f o s d0 d1)
       | push_token k s l ln =>
           exists n, NODE arr' idx = Some n
             /\ kind n = k /\ flags n = 0 /\ start n = s /\ data0 n = ln
             /\ NODE_LEN n = l
       | reserve n => True
       end.
Proof.
  intros Hinv Hty Hfit Hj.
  destruct (lookup_lt_is_Some_2 rs j Hj) as (r & Hr).
  destruct (run_fits_at rs arr j r Hinv Hty Hfit Hr)
    as (arr0 & arr1 & arr' & Hp & Hc & Hrun & Hidx & Hn).
  assert (Htyr : well_typed r).
  { apply (proj1 (Forall_forall _ _) Hty). apply list_elem_of_lookup. eauto. }
  exists (indices (count arr) rs), arr', r, (count arr0).
  split; [exact Hrun |]. split; [exact Hr |]. split; [exact Hidx |].
  destruct r as [k s l ln | k f o s d0 d1 | n]; [| | exact I]; simpl in *.
  - destruct Htyr as (Hk & Hs & Hl & Hln).
    rewrite Hn by lia. invert_push_at_count Hp.
    eexists. split; [apply NODE_written; exact Hmap |]. simpl.
    rewrite (u8_id k Hk). repeat split.
    unfold NODE_LEN, NODE_END, NODE_LEN_OVERFLOW. simpl.
    destruct (Z.leb_spec l 65534) as [Hle | Hgt].
    + rewrite (u16_id l) by (unfold is_u16, is_u32 in *; lia).
      destruct (Z.eqb_spec l 65535); [lia |].
      apply u32_add_sub. exact Hl.
    + simpl. destruct (Z.gtb_spec l 65534); [| lia].
      apply u32_add_sub. exact Hl.
  - destruct Htyr as (Hk & _).
    rewrite Hn by lia. invert_push_at_count Hp.
    rewrite NODE_written by exact Hmap.
    rewrite (u8_id k Hk). reflexivity.
Qed.

Lemma pushed_records_readable_witness :
  exists idxs arr' r idx,
    run [push_token NODE_NUMBER 0 1 1; reserve 4; push_token NODE_NUMBER 4 70000 2]
        fresh_arena
    = Returns idxs arr'
    /\ [push_token NODE_NUMBER 0 1 1; reserve 4; push_token NODE_NUMBER 4 70000 2]
         !! 0%nat = Some r
    /\ idxs !! 0%nat = Some idx
    /\ match r with
       | push_compound k f o s d0 d1 =>
           NODE arr' idx = Some (mkNode k f o s d0 d1)
       | push_token k s l ln =>
           exists n, NODE arr' idx = Some n
             /\ kind n = k /\ flags n = 0 /\ start n = s /\ data0 n = ln
             /\ NODE_LEN n = l
       | reserve n => True
       end.
Proof.
  apply (pushed_records_readable
           [push_token NODE_NUMBER 0 1 1; reserve 4;
            push_token NODE_NUMBER 4 70000 2] fresh_arena 0).
  - exact fresh_arena_inv.
  - repeat constructor; unfold is_u8, is_u32, NODE_NUMBER; lia.
  - simpl. rewrite NODE_MAX_NODES_eq. lia.
  - simpl. lia.
Defined.
